(** * api_cache: endpoint resolution, cache keys and the forwarding engine

    A shallow embedding of [internal/config] (rule resolution),
    [internal/cache] (key derivation, store reads) and [internal/proxy]
    (retrying forwarder, cache population, response assembly).

    Conventions.
    - Go [string] is [string]; [int] and [time.Duration] are [Z]
      (a Duration counts nanoseconds).
    - Go maps ([map[string][]string], [http.Header], [url.Values]) are
      [gmap string (list string)]; the nil map is the empty map.
    - A compiled [*regexp.Regexp] is known only through [MatchString], so it
      is a function [string -> bool]; a nil pointer is [None].
    - Library code that the repository calls but does not define (SHA-256,
      header-name canonicalisation, float scaling of the backoff, JSON
      decoding, time formatting) is taken as a Section variable.
    - The handlers return what they wrote to the [http.ResponseWriter]
      together with the calls that left the process (upstream requests,
      sleeps, store reads and writes), in order; the clock is threaded
      through the retry loop.  Calls to the logger change none of these and
      are left out. *)

From Stdlib Require Import ZArith List Bool Lia Ascii.
From stdpp Require Import base option list gmap strings sorting.

Import ListNotations.
Open Scope Z_scope.

(* ------------------------------------------------------------------ *)
(** ** internal/config: the rule table *)

Definition Regexp := string -> bool.

Record EndpointCacheConfig := mkEndpointCacheConfig {
  Path : string;
  PathRegex : string;
  Methods : list string;
  TTL : Z;
  CacheKeyHeaders : list string;
  CacheKeyQueryParams : list string;
  MatchQueryParams : gmap string (list string);
  MatchQueryParamsRegex : gmap string (list string);
  compiledRegex : option Regexp;
  compiledQueryParamRegex : gmap string (list Regexp)
}.

Record EndpointRateLimitConfig := mkEndpointRateLimitConfig {
  rl_Path : string;
  rl_PathRegex : string;
  rl_RequestsPerSecond : Z;
  rl_Burst : Z;
  rl_compiledRegex : option Regexp
}.

Inductive MatchType :=
| MatchTypeExact
| MatchTypeRegex
| MatchTypeQueryParam
| MatchTypeFallbackExact
| MatchTypeFallbackRegex
| MatchTypeDefault.

Record EndpointMatch := mkEndpointMatch {
  Config : option EndpointCacheConfig;
  MatchKind : MatchType
}.

(** [slices.Contains(ep.Methods, method)] *)
Definition slices_Contains (l : list string) (s : string) : bool :=
  existsb (fun m => bool_decide (m = s)) l.

(** [regex != nil && regex.MatchString(s)] *)
Definition regexMatches (re : option Regexp) (s : string) : bool :=
  match re with
  | Some r => r s
  | None => false
  end.

(** The path test of one loop iteration: [(pathMatches, pathMatchType)]. *)
Definition pathMatch (ep : EndpointCacheConfig) (path : string) : bool * MatchType :=
  if bool_decide (Path ep ≠ "") && bool_decide (Path ep = path)
  then (true, MatchTypeExact)
  else if regexMatches (compiledRegex ep) path
       then (true, MatchTypeRegex)
       else (false, MatchTypeExact).

(** [len(ep.MatchQueryParams) > 0 || len(ep.compiledQueryParamRegex) > 0] *)
Definition hasQueryParamMatching (ep : EndpointCacheConfig) : bool :=
  bool_decide (0 < size (MatchQueryParams ep))%nat
  || bool_decide (0 < size (compiledQueryParamRegex ep))%nat.

(** One allow-list constraint: the body of the first [range] loop. *)
Definition exactParamHolds (queryParams : gmap string (list string))
    (param : string) (allowedValues : list string) : bool :=
  match queryParams !! param with
  | None => false
  | Some [] => false
  | Some (v0 :: _) => existsb (fun v => bool_decide (v = v0)) allowedValues
  end.

(** One pattern constraint: the body of the second [range] loop. *)
Definition regexParamHolds (queryParams : gmap string (list string))
    (param : string) (regexList : list Regexp) : bool :=
  match queryParams !! param with
  | None => false
  | Some [] => false
  | Some (v0 :: _) => existsb (fun re => re v0) regexList
  end.

(** [allParamsMatch]: both loops break on the first failing constraint, so
    the flag is the conjunction over all entries, in whatever order the map
    is ranged over. *)
Definition allParamsMatch (ep : EndpointCacheConfig)
    (queryParams : gmap string (list string)) : bool :=
  forallb (fun kv => exactParamHolds queryParams kv.1 kv.2)
          (map_to_list (MatchQueryParams ep))
  && forallb (fun kv => regexParamHolds queryParams kv.1 kv.2)
             (map_to_list (compiledQueryParamRegex ep)).

(** The loop of [GetEndpointCacheConfigMatch], with the two locals
    [fallbackMatch] and [fallbackMatchType] threaded as one option. *)
Fixpoint matchLoop (eps : list EndpointCacheConfig) (path method : string)
    (queryParams : gmap string (list string))
    (fallback : option (EndpointCacheConfig * MatchType)) : EndpointMatch :=
  match eps with
  | [] =>
      match fallback with
      | Some (ep, MatchTypeRegex) => mkEndpointMatch (Some ep) MatchTypeFallbackRegex
      | Some (ep, _) => mkEndpointMatch (Some ep) MatchTypeFallbackExact
      | None => mkEndpointMatch None MatchTypeDefault
      end
  | ep :: rest =>
      if negb (slices_Contains (Methods ep) method)
      then matchLoop rest path method queryParams fallback
      else
        let '(pathMatches, pathMatchType) := pathMatch ep path in
        if negb pathMatches
        then matchLoop rest path method queryParams fallback
        else if negb (hasQueryParamMatching ep)
        then matchLoop rest path method queryParams
               (match fallback with
                | None => Some (ep, pathMatchType)
                | Some _ => fallback
                end)
        else if allParamsMatch ep queryParams
        then mkEndpointMatch (Some ep) MatchTypeQueryParam
        else matchLoop rest path method queryParams fallback
  end.

Definition GetEndpointCacheConfigMatch (endpoints : list EndpointCacheConfig)
    (path method : string) (queryParams : gmap string (list string)) : EndpointMatch :=
  matchLoop endpoints path method queryParams None.

Definition GetEndpointCacheConfig (endpoints : list EndpointCacheConfig)
    (path method : string) (queryParams : gmap string (list string))
    : option EndpointCacheConfig :=
  Config (GetEndpointCacheConfigMatch endpoints path method queryParams).

(** [GetEndpointRateLimitConfig]: one pass, each rule tested for an exact hit
    and then for a pattern hit before the next rule is looked at. *)
Fixpoint GetEndpointRateLimitConfig (endpoints : list EndpointRateLimitConfig)
    (path : string) : option EndpointRateLimitConfig :=
  match endpoints with
  | [] => None
  | ep :: rest =>
      if bool_decide (rl_Path ep ≠ "") && bool_decide (rl_Path ep = path)
      then Some ep
      else if regexMatches (rl_compiledRegex ep) path
      then Some ep
      else GetEndpointRateLimitConfig rest path
  end.

(** *** Vocabulary of the resolution rules *)

(** The rule applies to the request's method and path. *)
Definition eligible (ep : EndpointCacheConfig) (path method : string) : bool :=
  slices_Contains (Methods ep) method && (pathMatch ep path).1.

(** A discriminated rule all of whose constraints hold. *)
Definition wins (path method : string) (queryParams : gmap string (list string))
    (ep : EndpointCacheConfig) : bool :=
  eligible ep path method && hasQueryParamMatching ep && allParamsMatch ep queryParams.

(** An applicable rule without query-parameter discrimination. *)
Definition isFallback (path method : string) (ep : EndpointCacheConfig) : bool :=
  eligible ep path method && negb (hasQueryParamMatching ep).

Definition fallbackKind (ep : EndpointCacheConfig) (path : string) : MatchType :=
  match (pathMatch ep path).2 with
  | MatchTypeRegex => MatchTypeFallbackRegex
  | _ => MatchTypeFallbackExact
  end.

(** What the walk returns, said without the walk. *)
Definition resolveCache (endpoints : list EndpointCacheConfig) (path method : string)
    (queryParams : gmap string (list string)) : EndpointMatch :=
  match find (wins path method queryParams) endpoints with
  | Some ep => mkEndpointMatch (Some ep) MatchTypeQueryParam
  | None =>
      match find (isFallback path method) endpoints with
      | Some ep => mkEndpointMatch (Some ep) (fallbackKind ep path)
      | None => mkEndpointMatch None MatchTypeDefault
      end
  end.

(** *** The /query rule set of the configuration tests *)

Definition hour : Z := 3600 * 1000000000.
Definition minute : Z := 60 * 1000000000.

Definition queryRule (ttl : Z) (allowed : list string) : EndpointCacheConfig :=
  mkEndpointCacheConfig "/query" "" ["GET"] ttl [] []
    (match allowed with
     | [] => ∅
     | _ => {[ "function" := allowed ]}
     end)
    ∅ None ∅.

Definition queryRules : list EndpointCacheConfig :=
  [ queryRule (24 * hour) ["EOD"; "WEEKLY"; "MONTHLY"];
    queryRule (5 * minute) ["INTRADAY"];
    queryRule (1 * hour) [] ].

Definition ttlOf (m : option EndpointCacheConfig) : option Z := TTL <$> m.


(* ------------------------------------------------------------------ *)
(** ** Requests, responses and the Go library functions used on them *)

Definition bytes := list Byte.byte.

Record Request := mkRequest {
  Method : string;
  URLPath : string;                       (* r.URL.Path *)
  RawQuery : string;                      (* r.URL.RawQuery *)
  Query : gmap string (list string);      (* r.URL.Query() *)
  Header : gmap string (list string)      (* r.Header, keys canonical *)
}.

(** [url.Values.Get]: the first value, or the empty string. *)
Definition Values_Get (v : gmap string (list string)) (key : string) : string :=
  match v !! key with
  | Some (x :: _) => x
  | _ => ""
  end.

(** [strings.Join] *)
Fixpoint strings_Join (elems : list string) (sep : string) : string :=
  match elems with
  | [] => ""
  | [x] => x
  | x :: rest => x +:+ sep +:+ strings_Join rest sep
  end.

(** [sort.Strings]: ascending byte-wise order.  Equal strings are
    indistinguishable, so any sorting algorithm gives the same slice. *)
Fixpoint insertSorted (s : string) (l : list string) : list string :=
  match l with
  | [] => [s]
  | x :: rest => if String.leb s x then s :: l else x :: insertSorted s rest
  end.

Definition sort_Strings (l : list string) : list string :=
  foldr insertSorted [] l.

(** The two loops of [GenerateCacheKey] that collect ["name=value"] for
    every listed name whose value is not empty. *)
Definition collectParts (get : string -> string) (names : list string) : list string :=
  foldl (fun parts name =>
           let val := get name in
           if bool_decide (val ≠ "") then parts ++ [name +:+ "=" +:+ val] else parts)
        [] names.

(** [append(keyParts, strings.Join(parts, sep))] when [parts] is not empty. *)
Definition appendJoined (keyParts parts : list string) (sep : string) : list string :=
  match sort_Strings parts with
  | [] => keyParts
  | sorted => keyParts ++ [strings_Join sorted sep]
  end.

Section GoLibrary.

(** [hex.EncodeToString] of [sha256.Sum256] of the bytes of a string. *)
Variable sha256_hex : string -> string.
(** [textproto.CanonicalMIMEHeaderKey] *)
Variable CanonicalMIMEHeaderKey : string -> string.

(** [http.Header.Get] *)
Definition Header_Get (h : gmap string (list string)) (key : string) : string :=
  Values_Get h (CanonicalMIMEHeaderKey key).

(** [http.Header.Add], [Set] and [Del] *)
Definition Header_Add (h : gmap string (list string)) (key value : string)
    : gmap string (list string) :=
  let k := CanonicalMIMEHeaderKey key in
  <[ k := default [] (h !! k) ++ [value] ]> h.

Definition Header_Set (h : gmap string (list string)) (key value : string)
    : gmap string (list string) :=
  <[ CanonicalMIMEHeaderKey key := [value] ]> h.

Definition Header_Del (h : gmap string (list string)) (key : string)
    : gmap string (list string) :=
  delete (CanonicalMIMEHeaderKey key) h.

(** *** internal/cache: [GenerateCacheKey] *)

(** The string that is hashed. *)
Definition keyString (r : Request) (endpointConfig : option EndpointCacheConfig) : string :=
  let keyParts := [Method r; URLPath r] in
  let keyParts :=
    match endpointConfig with
    | Some ep =>
        if bool_decide (0 < length (CacheKeyQueryParams ep))%nat
        then appendJoined keyParts
               (collectParts (Values_Get (Query r)) (CacheKeyQueryParams ep)) "&"
        else keyParts
    | None => keyParts
    end in
  let keyParts :=
    match endpointConfig with
    | Some ep =>
        if bool_decide (0 < length (CacheKeyHeaders ep))%nat
        then appendJoined keyParts
               (collectParts (Header_Get (Header r)) (CacheKeyHeaders ep)) "|"
        else keyParts
    | None => keyParts
    end in
  strings_Join keyParts ":".

Definition GenerateCacheKey (r : Request) (endpointConfig : option EndpointCacheConfig)
    : string :=
  "cache:" +:+ sha256_hex (keyString r endpointConfig).

End GoLibrary.

Definition keyRule (qs hs : list string) : EndpointCacheConfig :=
  mkEndpointCacheConfig "/api/users" "" ["GET"] (600 * 1000000000) hs qs ∅ ∅ None ∅.

(* ------------------------------------------------------------------ *)
(** ** internal/proxy: data *)

(** Go [error] values.  [fmt.Errorf("msg: %w", err)] wraps [err], which may
    be nil. *)
#[warnings="-register-all"]
Inductive error :=
| errString (msg : string)
| errWrap (msg : string) (inner : option error).

(** [context.Canceled] / [context.DeadlineExceeded], as [ctx.Err()]. *)
Definition ctxErr : error := errString "context canceled".

(** An upstream [*http.Response].  The body is a stream: [BodyData] is what
    can be read before it ends, [BodyErr] the error that ends it, if any. *)
Record Response := mkResponse {
  StatusCode : Z;
  RespHeader : gmap string (list string);
  BodyData : bytes;
  BodyErr : option error
}.

(** What [httpClient.Do] returns. *)
Inductive RoundTrip :=
| DoErr (err : error)
| DoResp (resp : Response).

Record CachedResponse := mkCachedResponse {
  cr_StatusCode : Z;
  cr_Headers : gmap string (list string);
  cr_Body : bytes;
  cr_CachedAt : Z
}.

(** What [c.redis.Get(ctx, key).Bytes()] returns. *)
Inductive RedisGet :=
| RedisNil
| RedisErr (err : error)
| RedisData (data : bytes).

(** [config.RetryConfig]; the float [BackoffMultiplier] acts only through
    the scaling function of the library section below. *)
Record RetryConfig := mkRetryConfig {
  Enabled : bool;
  MaxAttempts : Z;
  InitialBackoff : Z;
  MaxBackoff : Z;
  RetryableStatusCodes : list Z
}.

(** The parts of [config.Config] the handler reads. *)
Record HandlerConfig := mkHandlerConfig {
  Endpoints : list EndpointCacheConfig;
  DefaultTTL : Z;
  Retry : RetryConfig;
  BaseURL : string
}.

(** Everything outside the process that a request can observe. *)
Record World := mkWorld {
  (** error of [http.NewRequestWithContext] for a method and a URL *)
  newRequestErr : string -> string -> option error;
  (** answer of the upstream to the n-th call, while the context is live *)
  upstream : Z -> RoundTrip;
  (** [ctx.Err() != nil] at a given time *)
  ctxDone : Z -> bool;
  (** content of the store under a key *)
  redisGet : string -> RedisGet
}.

(** Calls that leave the process, in the order they are made.  Times are
    nanoseconds on the clock the handler started with. *)
Inductive Event :=
| EvUpstream (attempt : Z) (url : string) (at_ : Z)
| EvSleep (d : Z) (at_ : Z)
| EvStoreGet (key : string)
| EvStoreSet (key : string) (entry : CachedResponse) (ttl : Z).

(** [http.ResponseWriter] *)
Record ResponseWriter := mkResponseWriter {
  w_header : gmap string (list string);
  w_status : option Z;
  w_body : bytes
}.

Definition newResponseWriter : ResponseWriter := mkResponseWriter ∅ None [].

(** [w.WriteHeader(code)]: the first call fixes the status. *)
Definition WriteHeader (w : ResponseWriter) (code : Z) : ResponseWriter :=
  match w_status w with
  | Some _ => w
  | None => mkResponseWriter (w_header w) (Some code) (w_body w)
  end.

(** [w.Write(b)] *)
Definition Write (w : ResponseWriter) (b : bytes) : ResponseWriter :=
  mkResponseWriter (w_header w)
    (match w_status w with Some c => Some c | None => Some 200 end)
    (w_body w ++ b).

Definition withHeader (w : ResponseWriter) (h : gmap string (list string))
    : ResponseWriter :=
  mkResponseWriter h (w_status w) (w_body w).

(** [h.isRetryableStatus] *)
Definition isRetryableStatus (rc : RetryConfig) (statusCode : Z) : bool :=
  if negb (Enabled rc) then false
  else existsb (fun code => code =? statusCode) (RetryableStatusCodes rc).

(** [h.getTTL] *)
Definition getTTL (cfg : HandlerConfig) (endpointConfig : option EndpointCacheConfig) : Z :=
  match endpointConfig with
  | Some ep => if 0 <? TTL ep then TTL ep else DefaultTTL cfg
  | None => DefaultTTL cfg
  end.

(** [time.Sleep(d)] returns at once for [d <= 0]. *)
Definition afterSleep (now d : Z) : Z := now + Z.max 0 d.

(** [httpClient.Do] of a request built with the request context: a done
    context makes the call fail. *)
Definition httpClient_Do (wd : World) (attempt now : Z) : RoundTrip :=
  if ctxDone wd now then DoErr ctxErr else upstream wd attempt.

Definition upstreamURL (cfg : HandlerConfig) (r : Request) : string :=
  if bool_decide (RawQuery r ≠ "")
  then BaseURL cfg +:+ URLPath r +:+ "?" +:+ RawQuery r
  else BaseURL cfg +:+ URLPath r.

(* ------------------------------------------------------------------ *)
(** ** internal/proxy and internal/cache: behaviour *)

Section Handler.

Variable sha256_hex : string -> string.
Variable CanonicalMIMEHeaderKey : string -> string.
(** [time.Duration(float64(backoff) * h.config.Retry.BackoffMultiplier)] *)
Variable scaleBackoff : Z -> Z.
(** [t.Format(time.RFC3339)] *)
Variable formatRFC3339 : Z -> string.
(** [json.Unmarshal(data, &cached)] *)
Variable json_Unmarshal : bytes -> error + CachedResponse.

Variable cfg : HandlerConfig.
Variable wd : World.

Definition nextBackoff (backoff : Z) : Z :=
  let backoff := scaleBackoff backoff in
  if MaxBackoff (Retry cfg) <? backoff then MaxBackoff (Retry cfg) else backoff.

Definition maxAttemptsOf : Z :=
  if Enabled (Retry cfg) then MaxAttempts (Retry cfg) else 1.

(** The [for attempt := 1; attempt <= maxAttempts; attempt++] loop of
    [forwardWithRetry].  [fuel] bounds the number of iterations; the
    locals [backoff] and [lastErr], the clock and the calls made so far
    are threaded through. *)
Fixpoint retryLoop (fuel : nat) (r : Request) (attempt backoff : Z)
    (lastErr : option error) (now : Z) (trace : list Event)
    : (error + Response) * Z * list Event :=
  let exhausted := (inl (errWrap "all retry attempts failed" lastErr), now, trace) in
  match fuel with
  | O => exhausted
  | S fuel' =>
      if negb (attempt <=? maxAttemptsOf) then exhausted
      else
        let url := upstreamURL cfg r in
        match newRequestErr wd (Method r) url with
        | Some err =>
            (inl (errWrap "failed to create upstream request" (Some err)), now, trace)
        | None =>
            let trace := trace ++ [EvUpstream attempt url now] in
            match httpClient_Do wd attempt now with
            | DoErr err =>
                if attempt <? maxAttemptsOf
                then retryLoop fuel' r (attempt + 1) (nextBackoff backoff) (Some err)
                       (afterSleep now backoff) (trace ++ [EvSleep backoff now])
                else (inl (errWrap "all retry attempts failed" (Some err)), now, trace)
            | DoResp resp =>
                if isRetryableStatus (Retry cfg) (StatusCode resp)
                   && (attempt <? maxAttemptsOf)
                then retryLoop fuel' r (attempt + 1) (nextBackoff backoff) lastErr
                       (afterSleep now backoff) (trace ++ [EvSleep backoff now])
                else (inr resp, now, trace)
            end
        end
  end.

Definition forwardWithRetry (r : Request) (now : Z)
    : (error + Response) * Z * list Event :=
  retryLoop (Z.to_nat maxAttemptsOf) r 1 (InitialBackoff (Retry cfg)) None now [].

(** [for key, values := range src { for _, value := range values {
    w.Header().Add(key, value) } }] *)
Definition copyHeaders (dst src : gmap string (list string))
    : gmap string (list string) :=
  map_fold (fun key values acc =>
              foldl (fun acc value => Header_Add CanonicalMIMEHeaderKey acc key value)
                    acc values)
           dst src.

(** [http.Error] of net/http (Go 1.25). *)
Definition http_Error (w : ResponseWriter) (msg : string) (code : Z) : ResponseWriter :=
  let h := Header_Del CanonicalMIMEHeaderKey (w_header w) "Content-Length" in
  let h := Header_Set CanonicalMIMEHeaderKey h "Content-Type" "text/plain; charset=utf-8" in
  let h := Header_Set CanonicalMIMEHeaderKey h "X-Content-Type-Options" "nosniff" in
  Write (WriteHeader (withHeader w h) code)
        (String.list_byte_of_string (msg +:+ String (Ascii.ascii_of_N 10) "")).

(** [cache.Client.Get] *)
Definition cache_Get (key : string) : option CachedResponse * option error :=
  match redisGet wd key with
  | RedisNil => (None, None)
  | RedisErr err => (None, Some (errWrap "failed to get cache" (Some err)))
  | RedisData data =>
      match json_Unmarshal data with
      | inl err => (None, Some (errWrap "failed to unmarshal cached response" (Some err)))
      | inr cached => (Some cached, None)
      end
  end.

Definition serveCachedResponse (w : ResponseWriter) (cached : CachedResponse)
    : ResponseWriter :=
  let h := copyHeaders (w_header w) (cr_Headers cached) in
  let h := Header_Set CanonicalMIMEHeaderKey h "X-Cache" "HIT" in
  let h := Header_Set CanonicalMIMEHeaderKey h "X-Cache-Time"
             (formatRFC3339 (cr_CachedAt cached)) in
  Write (WriteHeader (withHeader w h) (cr_StatusCode cached)) (cr_Body cached).

(** [forwardAndCache]: the writer, and the calls made, in order. *)
Definition forwardAndCache (w : ResponseWriter) (r : Request) (now : Z)
    (cacheKey : string) (endpointConfig : option EndpointCacheConfig)
    : ResponseWriter * list Event :=
  let '(res, now, trace) := forwardWithRetry r now in
  match res with
  | inl _ => (http_Error w "upstream service unavailable" 502, trace)
  | inr resp =>
      match BodyErr resp with
      | Some _ => (http_Error w "failed to read upstream response" 500, trace)
      | None =>
          let body := BodyData resp in
          let trace :=
            if (200 <=? StatusCode resp) && (StatusCode resp <? 300)
            then trace ++ [EvStoreSet cacheKey
                             (mkCachedResponse (StatusCode resp) (RespHeader resp) body now)
                             (getTTL cfg endpointConfig)]
            else trace in
          let h := copyHeaders (w_header w) (RespHeader resp) in
          let h := Header_Set CanonicalMIMEHeaderKey h "X-Cache" "MISS" in
          (Write (WriteHeader (withHeader w h) (StatusCode resp)) body, trace)
      end
  end.

(** [forwardRequest]: the path of requests that are not GET. *)
Definition forwardRequest (w : ResponseWriter) (r : Request) (now : Z)
    : ResponseWriter * list Event :=
  let '(res, _, trace) := forwardWithRetry r now in
  match res with
  | inl _ => (http_Error w "upstream service unavailable" 502, trace)
  | inr resp =>
      let h := copyHeaders (w_header w) (RespHeader resp) in
      (Write (WriteHeader (withHeader w h) (StatusCode resp)) (BodyData resp), trace)
  end.

Definition ServeHTTP (w : ResponseWriter) (r : Request) (now : Z)
    : ResponseWriter * list Event :=
  if bool_decide (Method r ≠ "GET") then forwardRequest w r now
  else
    let endpointConfig :=
      GetEndpointCacheConfig (Endpoints cfg) (URLPath r) (Method r) (Query r) in
    let cacheKey := GenerateCacheKey sha256_hex CanonicalMIMEHeaderKey r endpointConfig in
    let '(cached, _) := cache_Get cacheKey in
    match cached with
    | Some c => (serveCachedResponse w c, [EvStoreGet cacheKey])
    | None =>
        let '(w', trace) := forwardAndCache w r now cacheKey endpointConfig in
        (w', EvStoreGet cacheKey :: trace)
    end.

End Handler.

(** The end of the walk: the remembered fallback, if any, is returned. *)
Definition finishFallback (fallback : option (EndpointCacheConfig * MatchType))
    : EndpointMatch :=
  match fallback with
  | Some (ep, MatchTypeRegex) => mkEndpointMatch (Some ep) MatchTypeFallbackRegex
  | Some (ep, _) => mkEndpointMatch (Some ep) MatchTypeFallbackExact
  | None => mkEndpointMatch None MatchTypeDefault
  end.

Definition functionIs (v : string) : gmap string (list string) :=
  {[ "function" := [v] ]}.

(** *** Vocabulary of rate-limit resolution *)

Definition exactHit (path : string) (ep : EndpointRateLimitConfig) : bool :=
  bool_decide (rl_Path ep ≠ "") && bool_decide (rl_Path ep = path).

Definition patternHit (path : string) (ep : EndpointRateLimitConfig) : bool :=
  regexMatches (rl_compiledRegex ep) path.

(** Resolution as the specification words it: the first exact hit anywhere
    in the list, and only without one the first pattern hit. *)
Definition rateLimitExactFirst (endpoints : list EndpointRateLimitConfig)
    (path : string) : option EndpointRateLimitConfig :=
  match find (exactHit path) endpoints with
  | Some ep => Some ep
  | None => find (patternHit path) endpoints
  end.

(** The pattern [^/api/v1/admin/.*] *)
Definition adminPattern : Regexp := String.prefix "/api/v1/admin/".

Definition adminRules : list EndpointRateLimitConfig :=
  [ mkEndpointRateLimitConfig "" "^/api/v1/admin/.*" 5 10 (Some adminPattern);
    mkEndpointRateLimitConfig "/api/v1/admin/users" "" 10 20 None ].

(** *** Query-parameter constraints and empty values *)

(** Some constraint of the rule on [param] rejects the empty string. *)
Definition rejectsEmpty (ep : EndpointCacheConfig) (param : string) : Prop :=
  (∃ allowedValues, MatchQueryParams ep !! param = Some allowedValues
                    ∧ "" ∉ allowedValues)
  ∨ (∃ regexList, compiledQueryParamRegex ep !! param = Some regexList
                  ∧ ∀ re, re ∈ regexList → re "" = false).

(** The rule has a constraint on [param]. *)
Definition constrains (ep : EndpointCacheConfig) (param : string) : Prop :=
  is_Some (MatchQueryParams ep !! param)
  ∨ is_Some (compiledQueryParamRegex ep !! param).

(** A rule for /api/data whose pattern on [type] is [^(daily|weekly)?$]. *)
Definition optionalType : Regexp :=
  λ s, bool_decide (s = "") || bool_decide (s = "daily") || bool_decide (s = "weekly").

Definition dataRule : EndpointCacheConfig :=
  mkEndpointCacheConfig "/api/data" "" ["GET"] (10 * minute) [] []
    ∅ {[ "type" := ["^(daily|weekly)?$"] ]} None {[ "type" := [optionalType] ]}.

(** *** Reading a trace *)

(** The attempt numbers of the upstream calls, in order. *)
Definition attemptsOf (trace : list Event) : list Z :=
  omap (λ ev, match ev with EvUpstream attempt _ _ => Some attempt | _ => None end) trace.

(** The durations of the sleeps, in order. *)
Definition sleepsOf (trace : list Event) : list Z :=
  omap (λ ev, match ev with EvSleep d _ => Some d | _ => None end) trace.

(** The store writes, in order. *)
Definition storeSetsOf (trace : list Event) : list (string * CachedResponse * Z) :=
  omap (λ ev, match ev with
              | EvStoreSet key entry ttl => Some (key, entry, ttl)
              | _ => None
              end) trace.

(** The sleeps that start when the context is already done. *)
Definition sleepsAfterCancel (wd : World) (trace : list Event) : list Z :=
  omap (λ ev, match ev with
              | EvSleep d at_ => if ctxDone wd at_ then Some d else None
              | _ => None
              end) trace.

(** The first [n] values of the local [backoff], starting from [b]. *)
Fixpoint backoffSeq (next : Z -> Z) (n : nat) (b : Z) : list Z :=
  match n with
  | O => []
  | S n' => b :: backoffSeq next n' (next b)
  end.

(** The loop goes round again after this answer: a transport error, or a
    response whose status [isRetryableStatus] accepts. *)
Definition retried (rc : RetryConfig) (answer : RoundTrip) : bool :=
  match answer with
  | DoErr _ => true
  | DoResp resp => isRetryableStatus rc (StatusCode resp)
  end.

(** *** Concrete configurations for the forwarding engine *)

Definition ms : Z := 1000000.

Definition retry3 : RetryConfig :=
  mkRetryConfig true 3 (100 * ms) (2000 * ms) [500; 502; 503; 504].

Definition retry0 : RetryConfig :=
  mkRetryConfig true 0 (100 * ms) (2000 * ms) [500; 502; 503; 504].

Definition demoConfig (rc : RetryConfig) : HandlerConfig :=
  mkHandlerConfig queryRules (5 * minute) rc "http://localhost:9000".

(** [backoff_multiplier: 2.0] *)
Definition double (backoff : Z) : Z := 2 * backoff.

Definition sameName (s : string) : string := s.

Definition noDecode (data : bytes) : error + CachedResponse :=
  inl (errString "unexpected end of JSON input").

Definition showTime (t : Z) : string := "1970-01-01T00:00:00Z".

Definition body_ok : bytes := String.list_byte_of_string "ok".

Definition response (status : Z) (bodyErr : option error) : Response :=
  mkResponse status {[ "Content-Type" := ["text/plain"] ]} body_ok bodyErr.

(** An empty store, a live context, and an upstream that answers every call
    in the same way. *)
Definition worldAnswering (answer : RoundTrip) (done : bool) : World :=
  mkWorld (λ _ _, None) (λ _, answer) (λ _, done) (λ _, RedisNil).

Definition getQuery (v : string) : Request :=
  mkRequest "GET" "/query" ("function=" +:+ v) (functionIs v) ∅.

(** *** Store reads that yield no entry *)


(** The same world with a store that answers every read with [got]. *)
Definition withStore (wd : World) (got : RedisGet) : World :=
  mkWorld (newRequestErr wd) (upstream wd) (ctxDone wd) (λ _, got).

(** The matched rule and the key [ServeHTTP] derives for a request. *)
Definition matchedRule (cfg : HandlerConfig) (r : Request) : option EndpointCacheConfig :=
  GetEndpointCacheConfig (Endpoints cfg) (URLPath r) (Method r) (Query r).

Definition derivedKey (sha256_hex CanonicalMIMEHeaderKey : string → string)
    (cfg : HandlerConfig) (r : Request) : string :=
  GenerateCacheKey sha256_hex CanonicalMIMEHeaderKey r (matchedRule cfg r).

(** *** Header names the handler writes *)

(** The names set by [http.Error] do not canonicalise to the two cache
    headers, and those two differ.  (All five are in canonical form
    already, so the real canonicalisation leaves them as they are.) *)
Definition cacheHeadersDistinct (canon : string → string) : Prop :=
  canon "X-Cache" ≠ canon "X-Cache-Time"
  ∧ Forall (λ name, canon name ≠ canon "X-Cache" ∧ canon name ≠ canon "X-Cache-Time")
           ["Content-Length"; "Content-Type"; "X-Content-Type-Options"].

(** What the handler received from the forwarder, once the body is read. *)
Definition relayed (res : error + Response) : option Response :=
  match res with
  | inr resp => match BodyErr resp with None => Some resp | Some _ => None end
  | inl _ => None
  end.

(** A decoder that accepts whatever is stored, for the examples. *)
Definition decodeStored (data : bytes) : error + CachedResponse :=
  inr (mkCachedResponse 200 {[ "Content-Type" := ["text/plain"] ]} data 0).

(** *** Key-relevant values of a request *)

Definition setQuery (r : Request) (q : gmap string (list string)) : Request :=
  mkRequest (Method r) (URLPath r) (RawQuery r) q (Header r).

Definition setHeader (r : Request) (h : gmap string (list string)) : Request :=
  mkRequest (Method r) (URLPath r) (RawQuery r) (Query r) h.

(** Two requests have the same method and path and the same value for every
    query parameter and header that the rule lists. *)
Definition agreeOnRule (canon : string → string) (rule : option EndpointCacheConfig)
    (r1 r2 : Request) : Prop :=
  Method r1 = Method r2 ∧ URLPath r1 = URLPath r2
  ∧ match rule with
    | None => True
    | Some ep =>
        (∀ p, p ∈ CacheKeyQueryParams ep →
              Values_Get (Query r1) p = Values_Get (Query r2) p)
        ∧ (∀ h, h ∈ CacheKeyHeaders ep →
                Header_Get canon (Header r1) h = Header_Get canon (Header r2) h)
    end.

Definition equalsSign : ascii := "="%char.

(** The name does not contain the character [=]. *)
Fixpoint plainName (s : string) : bool :=
  match s with
  | EmptyString => true
  | String c rest => negb (Ascii.eqb c equalsSign) && plainName rest
  end.

Definition plainNames (ep : EndpointCacheConfig) : Prop :=
  Forall (λ name, plainName name = true) (CacheKeyQueryParams ep)
  ∧ Forall (λ name, plainName name = true) (CacheKeyHeaders ep).

(** The requests differ in the value of the listed query parameter [p] and
    in no other key-relevant value. *)
Definition differInQuery (canon : string → string) (ep : EndpointCacheConfig)
    (r1 r2 : Request) (p : string) : Prop :=
  p ∈ CacheKeyQueryParams ep
  ∧ Values_Get (Query r1) p ≠ Values_Get (Query r2) p
  ∧ (∀ q, q ∈ CacheKeyQueryParams ep → q ≠ p →
          Values_Get (Query r1) q = Values_Get (Query r2) q)
  ∧ (∀ h, h ∈ CacheKeyHeaders ep →
          Header_Get canon (Header r1) h = Header_Get canon (Header r2) h).

(** The requests differ in the value of the listed header [p] (and so of
    every listed spelling of the same header) and in no other key-relevant
    value. *)
Definition differInHeader (canon : string → string) (ep : EndpointCacheConfig)
    (r1 r2 : Request) (p : string) : Prop :=
  p ∈ CacheKeyHeaders ep
  ∧ Header_Get canon (Header r1) p ≠ Header_Get canon (Header r2) p
  ∧ (∀ h, h ∈ CacheKeyHeaders ep → canon h ≠ canon p →
          Header_Get canon (Header r1) h = Header_Get canon (Header r2) h)
  ∧ (∀ q, q ∈ CacheKeyQueryParams ep →
          Values_Get (Query r1) q = Values_Get (Query r2) q).

(** One optional component of the hashed string, with the colon that
    precedes it. *)
Definition component (parts : list string) (sep : string) : string :=
  match sort_Strings parts with
  | [] => ""
  | sorted => ":" +:+ strings_Join sorted sep
  end.

(** Insertion into a list of names ordered by [name=]. *)
Fixpoint insertName (s : string) (l : list string) : list string :=
  match l with
  | [] => [s]
  | x :: rest =>
      if String.leb (s +:+ "=") (x +:+ "=") then s :: l else x :: insertName s rest
  end.

Definition sortNames (l : list string) : list string := foldr insertName [] l.

(** A rule whose key-relevant parameter names contain separators, and two
    requests that differ only in the value of [a]. *)
Definition oddRule : EndpointCacheConfig := keyRule ["a"; "a=1&a"] [].

Definition oddRequest (a : string) : Request :=
  mkRequest "GET" "/api/users" ""
    {[ "a" := [a]; "a=1&a" := ["1&a=2&a=1&a=1"] ]} ∅.

(** The part ["name=value"] for a name, given how values are looked up. *)
Definition keyed (get : string → string) (name : string) : string :=
  name +:+ "=" +:+ get name.

(** The length of a component in terms of its parts, for a separator of one
    character. *)
Definition partsLength (parts : list string) : nat :=
  sum_list ((λ part, S (String.length part)) <$> parts).

(** Two lookups agree outside the changed names, and give [v1] and [v2]
    on them. *)
Definition differOnly (get1 get2 : string → string) (changed : string → bool)
    (v1 v2 : string) (names : list string) : Prop :=
  ∀ name, name ∈ names →
    if changed name then get1 name = v1 ∧ get2 name = v2
    else get1 name = get2 name.

(** The rule of the cache-key tests and two requests for it. *)
Definition usersRule : EndpointCacheConfig := keyRule ["page"] ["Authorization"].

Definition usersRequest (page limit token : string) : Request :=
  mkRequest "GET" "/api/users" ("page=" +:+ page +:+ "&limit=" +:+ limit)
    {[ "page" := [page]; "limit" := [limit] ]}
    {[ "Authorization" := [token] ]}.

(* ------------------------------------------------------------------ *)
(** ** Further vocabulary *)

(** The time spent in a sequence of sleeps. *)
Definition elapsed (sleeps : list Z) : Z :=
  foldr (λ d total, Z.max 0 d + total) 0 sleeps.

(** A world whose upstream request cannot be built. *)
Definition worldRejecting (err : error) : World :=
  mkWorld (λ _ _, Some err) (λ _, DoResp (mkResponse 200 ∅ [] None))
          (λ _, false) (λ _, RedisNil).

Definition retryOff : RetryConfig :=
  mkRetryConfig false 5 (100 * ms) (2000 * ms) [500; 502; 503; 504].

(** An upstream that answers 503 twice and then fails to connect. *)
Definition flakyThenDown (attempt : Z) : RoundTrip :=
  if attempt <? 3 then DoResp (mkResponse 503 ∅ [] None)
  else DoErr (errString "connection refused").

Definition worldFlaky : World :=
  mkWorld (λ _ _, None) flakyThenDown (λ _, false) (λ _, RedisNil).

(** The store reads, in order. *)
Definition storeGetsOf (trace : list Event) : list string :=
  omap (λ ev, match ev with EvStoreGet key => Some key | _ => None end) trace.

(** A stored entry and the bytes it is served from. *)
Definition storedEntry : CachedResponse :=
  mkCachedResponse 200 {[ "Content-Type" := ["text/plain"] ]} body_ok 0.

Definition postQuery : Request :=
  mkRequest "POST" "/query" "" ∅ ∅.

(** *** The store as the handler leaves it *)

(** What a read finds once the writes of a trace have been accepted by a
    store that keeps what it is given: [cache.Client.Set] stores
    [json.Marshal] of the entry under the key. *)
Definition storeAfter (json_Marshal : CachedResponse → bytes) (trace : list Event)
    (get : string → RedisGet) : string → RedisGet :=
  foldl (λ get ev,
           match ev with
           | EvStoreSet key entry _ =>
               λ k, if bool_decide (k = key) then RedisData (json_Marshal entry) else get k
           | _ => get
           end)
        get trace.

(** A world with the given store reads. *)
Definition withReads (wd : World) (get : string → RedisGet) : World :=
  mkWorld (newRequestErr wd) (upstream wd) (ctxDone wd) get.

(** An encoding of entries by their body, inverted by [decodeBody], for the
    examples. *)
Definition encodeBody (entry : CachedResponse) : bytes := cr_Body entry.

Definition decodeBody (data : bytes) : error + CachedResponse :=
  inr (mkCachedResponse 200 {[ "Content-Type" := ["text/plain"] ]} data 0).


(** The first value supplied for a query parameter, if any. *)
Definition firstValue (queryParams : gmap string (list string)) (param : string)
    : option string :=
  match queryParams !! param with
  | Some (v :: _) => Some v
  | _ => None
  end.

(** The same rule with its key-relevant names listed in another order. *)
Definition pagedRule : EndpointCacheConfig := keyRule ["page"; "limit"] ["Authorization"].

Definition pagedRuleSwapped : EndpointCacheConfig :=
  keyRule ["limit"; "page"] ["Authorization"].

(* ------------------------------------------------------------------ *)
(** ** internal/config: compiling the patterns at load time *)

Section Compile.

(** [regexp.Compile] *)
Variable regexp_Compile : string → error + Regexp.
(** The [%q] verb of [fmt]. *)
Variable quoted : string → string.

(** The inner loop over the patterns of one parameter; an error ends all
    further work. *)
Definition compilePatterns (param : string) (patterns : list string)
    (acc : error + gmap string (list Regexp)) : error + gmap string (list Regexp) :=
  foldl (λ acc pattern,
           match acc with
           | inl err => inl err
           | inr compiled =>
               match regexp_Compile pattern with
               | inl err =>
                   inl (errWrap ("invalid query param regex pattern for param "
                                   +:+ quoted param) (Some err))
               | inr regex =>
                   inr (<[ param := default [] (compiled !! param) ++ [regex] ]> compiled)
               end
           end)
        acc patterns.

(** The loop over [ep.MatchQueryParamsRegex], started from the fresh map.
    Go ranges over the map in an unspecified order, which decides only
    which error is reported when several patterns are invalid. *)
Definition compileQueryParamRegex (patterns : gmap string (list string))
    : error + gmap string (list Regexp) :=
  map_fold compilePatterns (inr ∅) patterns.

(** One iteration of the loop over the cache endpoints. *)
Definition compileCacheEndpoint (ep : EndpointCacheConfig) : error + EndpointCacheConfig :=
  match
    (if bool_decide (PathRegex ep ≠ "")
     then match regexp_Compile (PathRegex ep) with
          | inl err =>
              inl (errWrap ("invalid cache regex pattern for endpoint "
                              +:+ quoted (PathRegex ep)) (Some err))
          | inr regex => inr (Some regex)
          end
     else inr (compiledRegex ep))
  with
  | inl err => inl err
  | inr pathRegex =>
      match
        (if bool_decide (0 < size (MatchQueryParamsRegex ep))%nat
         then compileQueryParamRegex (MatchQueryParamsRegex ep)
         else inr (compiledQueryParamRegex ep))
      with
      | inl err => inl err
      | inr queryRegex =>
          inr (mkEndpointCacheConfig (Path ep) (PathRegex ep) (Methods ep) (TTL ep)
                 (CacheKeyHeaders ep) (CacheKeyQueryParams ep) (MatchQueryParams ep)
                 (MatchQueryParamsRegex ep) pathRegex queryRegex)
      end
  end.

(** One iteration of the loop over the rate-limit endpoints. *)
Definition compileRateLimitEndpoint (ep : EndpointRateLimitConfig)
    : error + EndpointRateLimitConfig :=
  if bool_decide (rl_PathRegex ep ≠ "")
  then match regexp_Compile (rl_PathRegex ep) with
       | inl err =>
           inl (errWrap ("invalid rate limit regex pattern for endpoint "
                           +:+ quoted (rl_PathRegex ep)) (Some err))
       | inr regex =>
           inr (mkEndpointRateLimitConfig (rl_Path ep) (rl_PathRegex ep)
                  (rl_RequestsPerSecond ep) (rl_Burst ep) (Some regex))
       end
  else inr ep.

(** A loop over a slice that stops at the first error. *)
Fixpoint forEach {A} (step : A → error + A) (l : list A) : error + list A :=
  match l with
  | [] => inr []
  | x :: rest =>
      match step x with
      | inl err => inl err
      | inr x' =>
          match forEach step rest with
          | inl err => inl err
          | inr rest' => inr (x' :: rest')
          end
      end
  end.

(** [compileRegexPatterns]: the cache endpoints, then the rate-limit
    endpoints. *)
Definition compileRegexPatterns (cache : list EndpointCacheConfig)
    (rateLimit : list EndpointRateLimitConfig)
    : error + list EndpointCacheConfig * list EndpointRateLimitConfig :=
  match forEach compileCacheEndpoint cache with
  | inl err => inl err
  | inr cache' =>
      match forEach compileRateLimitEndpoint rateLimit with
      | inl err => inl err
      | inr rateLimit' => inr (cache', rateLimit')
      end
  end.

End Compile.

(** The patterns of a list compile to the given regexps, one by one. *)
Definition compileTo (regexp_Compile : string → error + Regexp)
    (patterns : list string) (res : list Regexp) : Prop :=
  Forall2 (λ pattern regex, regexp_Compile pattern = inr regex) patterns res.

(** Some pattern of the map does not compile. *)
Definition hasInvalidPattern (regexp_Compile : string → error + Regexp)
    (m : gmap string (list string)) : Prop :=
  ∃ param patterns pattern err,
    m !! param = Some patterns ∧ pattern ∈ patterns
    ∧ regexp_Compile pattern = inl err.

(** What the loop over a map of patterns establishes: on success every
    parameter with at least one pattern has its patterns compiled in order
    and no other parameter has an entry; a failure comes from an invalid
    pattern. *)
Definition compiledFrom (regexp_Compile : string → error + Regexp)
    (m : gmap string (list string))
    (acc : error + gmap string (list Regexp)) : Prop :=
  match acc with
  | inr compiled =>
      ∀ param,
        match m !! param with
        | Some (p :: ps) =>
            ∃ res, compileTo regexp_Compile (p :: ps) res
                   ∧ compiled !! param = Some res
        | _ => compiled !! param = None
        end
  | inl _ => hasInvalidPattern regexp_Compile m
  end.

(** A fallible step went through. *)
Definition succeeds {A} (x : error + A) : Prop := ∃ a, x = inr a.

(** Every pattern of a cache rule is valid: its path pattern, when it has
    one, and all the patterns of its query parameters. *)
Definition validCacheRule (regexp_Compile : string → error + Regexp)
    (ep : EndpointCacheConfig) : Prop :=
  (PathRegex ep ≠ "" → succeeds (regexp_Compile (PathRegex ep)))
  ∧ ¬ hasInvalidPattern regexp_Compile (MatchQueryParamsRegex ep).

Definition validRateLimitRule (regexp_Compile : string → error + Regexp)
    (ep : EndpointRateLimitConfig) : Prop :=
  rl_PathRegex ep ≠ "" → succeeds (regexp_Compile (rl_PathRegex ep)).

(** A cache rule after loading, against the rule as configured. *)
Definition cacheRuleLoaded (regexp_Compile : string → error + Regexp)
    (ep ep' : EndpointCacheConfig) : Prop :=
  Path ep' = Path ep ∧ PathRegex ep' = PathRegex ep
  ∧ Methods ep' = Methods ep ∧ TTL ep' = TTL ep
  ∧ CacheKeyHeaders ep' = CacheKeyHeaders ep
  ∧ CacheKeyQueryParams ep' = CacheKeyQueryParams ep
  ∧ MatchQueryParams ep' = MatchQueryParams ep
  ∧ MatchQueryParamsRegex ep' = MatchQueryParamsRegex ep
  ∧ (PathRegex ep ≠ "" →
     ∃ regex, regexp_Compile (PathRegex ep) = inr regex
              ∧ compiledRegex ep' = Some regex).

Definition rateLimitRuleLoaded (regexp_Compile : string → error + Regexp)
    (ep ep' : EndpointRateLimitConfig) : Prop :=
  rl_Path ep' = rl_Path ep ∧ rl_PathRegex ep' = rl_PathRegex ep
  ∧ rl_RequestsPerSecond ep' = rl_RequestsPerSecond ep
  ∧ rl_Burst ep' = rl_Burst ep
  ∧ (rl_PathRegex ep ≠ "" →
     ∃ regex, regexp_Compile (rl_PathRegex ep) = inr regex
              ∧ rl_compiledRegex ep' = Some regex).

(** A stand-in for [regexp.Compile] in the examples: an unbalanced ["("] is
    rejected, any other pattern matches itself. *)
Definition literalCompile (pattern : string) : error + Regexp :=
  if bool_decide (pattern = "(")
  then inl (errString "missing closing )")
  else inr (λ s, bool_decide (s = pattern)).

(** A rule whose only query constraint is a parameter with an empty list
    of patterns. *)
Definition emptyPatternRule : EndpointCacheConfig :=
  mkEndpointCacheConfig "/api/search" "" ["GET"] 60 [] []
    ∅ {[ "type" := [] ]} None ∅.

Definition usersPatternRule : EndpointCacheConfig :=
  mkEndpointCacheConfig "" "^/api/users/" ["GET"] 60 [] []
    ∅ {[ "id" := ["^[0-9]+$"] ]} None ∅.

Definition usersRateRule : EndpointRateLimitConfig :=
  mkEndpointRateLimitConfig "" "^/api/users/" 5 10 None.

(* ------------------------------------------------------------------ *)
(** ** internal/middleware: the rate limiter *)

(** [config.RateLimitConfig].  The rate is a [float64] in the source; it is
    only handed on to [rate.NewLimiter]. *)
Record RateLimitConfig := mkRateLimitConfig {
  rlc_Enabled : bool;
  rlc_RequestsPerSecond : Z;
  rlc_Burst : Z;
  rlc_Endpoints : list EndpointRateLimitConfig
}.

(** A [*rate.Limiter]: the address stands for the object, so that two
    limiters created with the same settings are still two budgets; the rate
    and the burst are what [rate.NewLimiter] was given. *)
Record Limiter := mkLimiter {
  lim_addr : nat;
  lim_rate : Z;
  lim_burst : Z
}.

(** [RateLimiter]; of the heap only the number of limiters allocated so far
    is kept, which is the address of the next one. *)
Record RateLimiter := mkRateLimiter {
  rl_config : RateLimitConfig;
  limiters : gmap string Limiter;
  allocated : nat
}.

(** [NewRateLimiter] *)
Definition NewRateLimiter (cfg : RateLimitConfig) : RateLimiter :=
  mkRateLimiter cfg ∅ 0.

(** The part of [getLimiter] that runs under the write lock: the second
    look at the registry and, if the path is still absent, the creation of
    its limiter from the rule's settings or the global ones. *)
Definition createLimiter (rl : RateLimiter) (path : string)
    (endpointConfig : option EndpointRateLimitConfig) : RateLimiter * Limiter :=
  match limiters rl !! path with
  | Some limiter => (rl, limiter)
  | None =>
      let rps := match endpointConfig with
                 | Some ep => rl_RequestsPerSecond ep
                 | None => rlc_RequestsPerSecond (rl_config rl)
                 end in
      let burst := match endpointConfig with
                   | Some ep => rl_Burst ep
                   | None => rlc_Burst (rl_config rl)
                   end in
      let limiter := mkLimiter (allocated rl) rps burst in
      (mkRateLimiter (rl_config rl) (<[ path := limiter ]> (limiters rl))
         (S (allocated rl)),
       limiter)
  end.

(** [getLimiter], run without interruption: the look under the read lock,
    then the part under the write lock. *)
Definition getLimiter (rl : RateLimiter) (path : string)
    (endpointConfig : option EndpointRateLimitConfig) : RateLimiter * Limiter :=
  match limiters rl !! path with
  | Some limiter => (rl, limiter)
  | None => createLimiter rl path endpointConfig
  end.

(** The body of the refusal. *)
Definition doubleQuote : string := String (Ascii.ascii_of_N 34) "".

Definition rateLimitExceeded : string :=
  "{" +:+ doubleQuote +:+ "error" +:+ doubleQuote +:+ ":"
      +:+ doubleQuote +:+ "rate limit exceeded" +:+ doubleQuote +:+ ","
      +:+ doubleQuote +:+ "message" +:+ doubleQuote +:+ ":"
      +:+ doubleQuote +:+ "too many requests" +:+ doubleQuote +:+ "}".

(** The handler that [Middleware] returns, on one request.  [cfg] is the
    rate-limit part of the configuration given to [Middleware], [next] the
    wrapped handler, with the events it causes, and [allow] what
    [limiter.Allow()] answers at this call. *)
Definition Middleware (canon : string → string) (cfg : RateLimitConfig)
    (next : ResponseWriter → Request → ResponseWriter * list Event)
    (allow : Limiter → bool)
    (rl : RateLimiter) (w : ResponseWriter) (r : Request)
    : RateLimiter * (ResponseWriter * list Event) :=
  if negb (rlc_Enabled (rl_config rl)) then (rl, next w r)
  else
    let endpointConfig := GetEndpointRateLimitConfig (rlc_Endpoints cfg) (URLPath r) in
    let '(rl', limiter) := getLimiter rl (URLPath r) endpointConfig in
    if negb (allow limiter)
    then
      let w := withHeader w (Header_Set canon (w_header w) "Content-Type"
                               "application/json") in
      (rl', (Write (WriteHeader w 429) (String.list_byte_of_string rateLimitExceeded),
             []))
    else (rl', next w r).

(** *** Calls of [getLimiter] that run at the same time *)

(** Where a call of [getLimiter] stands: before the look under the read
    lock, before the part under the write lock, or returned. *)
Inductive Call :=
| AtReadLock (path : string) (endpointConfig : option EndpointRateLimitConfig)
| AtWriteLock (path : string) (endpointConfig : option EndpointRateLimitConfig)
| Returned (path : string) (limiter : Limiter).

(** One critical section of a call; the locks make each of them atomic. *)
Definition advance (rl : RateLimiter) (c : Call) : RateLimiter * Call :=
  match c with
  | AtReadLock path endpointConfig =>
      match limiters rl !! path with
      | Some limiter => (rl, Returned path limiter)
      | None => (rl, AtWriteLock path endpointConfig)
      end
  | AtWriteLock path endpointConfig =>
      let '(rl', limiter) := createLimiter rl path endpointConfig in
      (rl', Returned path limiter)
  | Returned _ _ => (rl, c)
  end.

(** The scheduler lets call [i] run its next critical section. *)
Definition runCall (st : RateLimiter * list Call) (i : nat) : RateLimiter * list Call :=
  match st.2 !! i with
  | Some c => let '(rl', c') := advance st.1 c in (rl', <[ i := c' ]> st.2)
  | None => st
  end.

(** An interleaving is the list of the calls scheduled, in order. *)
Definition runSchedule (st : RateLimiter * list Call) (schedule : list nat)
    : RateLimiter * list Call :=
  foldl runCall st schedule.


Definition notStarted (c : Call) : Prop :=
  ∃ path endpointConfig, c = AtReadLock path endpointConfig.

(** Every returned call holds the limiter registered for its path. *)
Definition returnedRegistered (st : RateLimiter * list Call) : Prop :=
  ∀ i path limiter,
    st.2 !! i = Some (Returned path limiter) → limiters st.1 !! path = Some limiter.

(** *** A sequence of requests through the middleware *)

Definition serveAll (canon : string → string) (cfg : RateLimitConfig)
    (next : ResponseWriter → Request → ResponseWriter * list Event)
    (rl : RateLimiter) (requests : list (Request * (Limiter → bool))) : RateLimiter :=
  foldl (λ rl ra, (Middleware canon cfg next ra.2 rl newResponseWriter ra.1).1)
        rl requests.

(** The settings a path is limited with: those of the rule that resolution
    gives it, or the global ones. *)
Definition settingsFor (global cfg : RateLimitConfig) (path : string) : Z * Z :=
  match GetEndpointRateLimitConfig (rlc_Endpoints cfg) path with
  | Some ep => (rl_RequestsPerSecond ep, rl_Burst ep)
  | None => (rlc_RequestsPerSecond global, rlc_Burst global)
  end.

(** What the registry holds after a sequence of requests. *)
Definition registryOf (global cfg : RateLimitConfig) (paths : list string)
    (rl : RateLimiter) : Prop :=
  rl_config rl = global
  ∧ (∀ path,
       match limiters rl !! path with
       | Some limiter =>
           path ∈ paths
           ∧ (lim_rate limiter, lim_burst limiter) = settingsFor global cfg path
           ∧ (lim_addr limiter < allocated rl)%nat
       | None => path ∉ paths
       end)
  ∧ (∀ p q l l',
       limiters rl !! p = Some l → limiters rl !! q = Some l' →
       lim_addr l = lim_addr l' → p = q).

Definition limitedConfig : RateLimitConfig :=
  mkRateLimitConfig true 100 200
    [mkEndpointRateLimitConfig "" "^/api/users/" 5 10
       (Some (λ path, String.prefix "/api/users/" path))].

Definition getRequest (path : string) : Request :=
  mkRequest "GET" path "" ∅ ∅.

(* ------------------------------------------------------------------ *)
(** ** internal/config: the query string as it is logged *)

Definition redactedValue : string := "[REDACTED]".

(** [strings.Cut] with a separator of one character: the text before the
    first separator, the text after it, and whether there is one. *)
Fixpoint strings_Cut (s : string) (sep : ascii) : string * string * bool :=
  match s with
  | EmptyString => (EmptyString, EmptyString, false)
  | String c rest =>
      if Ascii.eqb c sep then (EmptyString, rest, true)
      else
        let '(before, after, found) := strings_Cut rest sep in
        (String c before, after, found)
  end.

Section Sanitize.

(** [url.ParseQuery] *)
Variable url_ParseQuery : string → error + gmap string (list string).
(** [url.QueryUnescape], its first result (the error is dropped by the
    caller). *)
Variable url_QueryUnescape : string → string.
(** [url.QueryEscape] *)
Variable url_QueryEscape : string → string.

(** The loop over [c.Logging.RedactQueryParams]. *)
Definition redactValues (redactQueryParams : list string)
    (parsed : gmap string (list string)) : gmap string (list string) :=
  foldl (λ parsed param,
           match parsed !! param with
           | Some _ => <[ param := [redactedValue] ]> parsed
           | None => parsed
           end)
        parsed redactQueryParams.

(** The loop that walks the original query.  Every turn cuts a segment off
    [rawQuery]; [fuel] bounds the number of turns. *)
Fixpoint walkQuery (fuel : nat) (parsed : gmap string (list string))
    (rawQuery : string) (seen : gset string) (parts : list string) : list string :=
  match fuel with
  | O => parts
  | S fuel =>
      if bool_decide (rawQuery = "") then parts
      else
        let '(key, rawQuery, _) := strings_Cut rawQuery "&" in
        let '(paramName, _, _) := strings_Cut key "=" in
        let paramName := url_QueryUnescape paramName in
        if bool_decide (paramName ∈ seen)
        then walkQuery fuel parsed rawQuery seen parts
        else
          walkQuery fuel parsed rawQuery ({[ paramName ]} ∪ seen)
            (parts ++ map (λ v, url_QueryEscape paramName +:+ "="
                                  +:+ url_QueryEscape v)
                          (default [] (parsed !! paramName)))
  end.

(** [SanitizeQuery] *)
Definition SanitizeQuery (redactQueryParams : list string) (rawQuery : string) : string :=
  if bool_decide (length redactQueryParams = 0%nat) || bool_decide (rawQuery = "")
  then rawQuery
  else
    match url_ParseQuery rawQuery with
    | inl _ => rawQuery
    | inr parsed =>
        strings_Join
          (walkQuery (S (String.length rawQuery))
             (redactValues redactQueryParams parsed) rawQuery ∅ [])
          "&"
    end.

End Sanitize.

(** *** Vocabulary for the sanitised query *)

(** The segments of a query string between its [&], a last empty one
    dropped. *)
Fixpoint segments (s : string) : list string :=
  match s with
  | EmptyString => []
  | String c rest =>
      if Ascii.eqb c "&" then EmptyString :: segments rest
      else
        match segments rest with
        | [] => [String c EmptyString]
        | first :: others => String c first :: others
        end
  end.

(** The parameter names of a query string, in order, with repetitions. *)
Definition queryNames (url_QueryUnescape : string → string) (rawQuery : string)
    : list string :=
  map (λ key, url_QueryUnescape (strings_Cut key "=").1.1) (segments rawQuery).

(** The names not yet seen, each at its first place. *)
Fixpoint firstSeen (seen : gset string) (names : list string) : list string :=
  match names with
  | [] => []
  | name :: rest =>
      if bool_decide (name ∈ seen) then firstSeen seen rest
      else name :: firstSeen ({[ name ]} ∪ seen) rest
  end.

(** The values a parameter is logged with. *)
Definition loggedValues (redactQueryParams : list string)
    (parsed : gmap string (list string)) (name : string) : list string :=
  match parsed !! name with
  | Some values => if bool_decide (name ∈ redactQueryParams) then [redactedValue] else values
  | None => []
  end.

(** Stand-ins for [url.ParseQuery] and [url.QueryEscape] on the query of
    the test "preserves parameter order". *)
Definition parseDemo (rawQuery : string) : error + gmap string (list string) :=
  if bool_decide (rawQuery = "symbol=IBM&apikey=secret&function=QUOTE")
  then inr {[ "symbol" := ["IBM"]; "apikey" := ["secret"]; "function" := ["QUOTE"] ]}
  else inl (errString "invalid semicolon separator in query").

Definition escapeDemo (s : string) : string :=
  if bool_decide (s = "[REDACTED]") then "%5BREDACTED%5D" else s.

(* ================================================================== *)
(** * Properties *)

(* ------------------------------------------------------------------ *)
(** ** Cache-rule resolution *)

Section CacheResolution.

Variables (path method : string) (queryParams : gmap string (list string)).

Lemma pathMatch_kind ep :
  (pathMatch ep path).2 = MatchTypeExact ∨ (pathMatch ep path).2 = MatchTypeRegex.
Proof.
  unfold pathMatch.
  destruct (_ && _); [by left|].
  destruct (regexMatches _ _); [by right | by left].
Qed.

(** The walk, started with any remembered fallback. *)
Lemma matchLoop_find (eps : list EndpointCacheConfig) fallback :
  matchLoop eps path method queryParams fallback =
  match find (wins path method queryParams) eps with
  | Some ep => mkEndpointMatch (Some ep) MatchTypeQueryParam
  | None =>
      finishFallback
        (match fallback with
         | Some _ => fallback
         | None => (λ ep, (ep, (pathMatch ep path).2))
                     <$> find (isFallback path method) eps
         end)
  end.
Proof.
  revert fallback.
  induction eps as [|ep rest IH]; intros fallback; simpl.
  - by destruct fallback as [[? []]|].
  - unfold wins, isFallback, eligible.
    destruct (slices_Contains (Methods ep) method); simpl; [|apply IH].
    destruct (pathMatch ep path) as [pm pt] eqn:Hpm; simpl.
    destruct pm; simpl; [|apply IH].
    destruct (hasQueryParamMatching ep); simpl.
    + destruct (allParamsMatch ep queryParams); [done | apply IH].
    + rewrite IH. destruct (find _ rest); [done|].
      destruct fallback; [done|]. by rewrite Hpm.
Qed.

End CacheResolution.

(** C1.  Cache resolution returns the first rule, in configured order, that
    applies to the method and path, is discriminated and has all its
    query-parameter constraints satisfied; rules before it, fallbacks
    included, do not stop the walk.  Without such a rule it returns the
    first applicable rule without discrimination, and without that either,
    no rule, so that the handler uses the default TTL.  On the three
    /query rules, function=EOD gives 24h, function=INTRADAY 5m, and
    function=UNKNOWN or no function parameter 1h. *)
Theorem C1_cache_resolution :
  (∀ endpoints path method queryParams,
     GetEndpointCacheConfigMatch endpoints path method queryParams
     = resolveCache endpoints path method queryParams)
  ∧ (∀ cfg, getTTL cfg (GetEndpointCacheConfig [] "/query" "GET" (functionIs "EOD"))
            = DefaultTTL cfg)
  ∧ ttlOf (GetEndpointCacheConfig queryRules "/query" "GET" (functionIs "EOD"))
    = Some (24 * hour)
  ∧ ttlOf (GetEndpointCacheConfig queryRules "/query" "GET" (functionIs "INTRADAY"))
    = Some (5 * minute)
  ∧ ttlOf (GetEndpointCacheConfig queryRules "/query" "GET" (functionIs "UNKNOWN"))
    = Some (1 * hour)
  ∧ ttlOf (GetEndpointCacheConfig queryRules "/query" "GET" {[ "other" := ["value"] ]})
    = Some (1 * hour)
  ∧ ttlOf (GetEndpointCacheConfig queryRules "/query" "GET" ∅) = Some (1 * hour).
Proof.
  split; [|repeat split; vm_compute; reflexivity].
  intros endpoints path method queryParams.
  unfold GetEndpointCacheConfigMatch, resolveCache.
  rewrite matchLoop_find.
  destruct (find (wins _ _ _) _); [done|].
  destruct (find (isFallback _ _) _) as [ep|]; simpl; [|done].
  unfold fallbackKind.
  by destruct (pathMatch_kind path ep) as [-> | ->].
Qed.

(** C8 (as stated) fails: the parameter [type] is supplied with an empty
    value, the rule constrains it, and the rule wins. *)
Lemma C8_empty_value_can_win :
  constrains dataRule "type"
  ∧ ({[ "type" := [""] ]} : gmap string (list string)) !! "type" = Some [""]
  ∧ wins "/api/data" "GET" {[ "type" := [""] ]} dataRule = true
  ∧ MatchKind (GetEndpointCacheConfigMatch [dataRule] "/api/data" "GET"
                 {[ "type" := [""] ]}) = MatchTypeQueryParam
  ∧ ttlOf (GetEndpointCacheConfig [dataRule] "/api/data" "GET" {[ "type" := [""] ]})
    = Some (10 * minute).
Proof.
  split; [right; by eexists|].
  repeat split; vm_compute; reflexivity.
Qed.

Section Constraints.

Variables (ep : EndpointCacheConfig) (queryParams : gmap string (list string)).

Lemma exact_constraint_fails param allowedValues :
  MatchQueryParams ep !! param = Some allowedValues →
  exactParamHolds queryParams param allowedValues = false →
  allParamsMatch ep queryParams = false.
Proof.
  intros Hin Hfail. unfold allParamsMatch.
  apply andb_false_intro1, not_true_is_false. intros Hall.
  rewrite forallb_forall in Hall.
  specialize (Hall (param, allowedValues)). simpl in Hall.
  rewrite Hfail in Hall. discriminate Hall.
  apply list_elem_of_In, elem_of_map_to_list, Hin.
Qed.

Lemma regex_constraint_fails param regexList :
  compiledQueryParamRegex ep !! param = Some regexList →
  regexParamHolds queryParams param regexList = false →
  allParamsMatch ep queryParams = false.
Proof.
  intros Hin Hfail. unfold allParamsMatch.
  apply andb_false_intro2, not_true_is_false. intros Hall.
  rewrite forallb_forall in Hall.
  specialize (Hall (param, regexList)). simpl in Hall.
  rewrite Hfail in Hall. discriminate Hall.
  apply list_elem_of_In, elem_of_map_to_list, Hin.
Qed.

Lemma missing_value_fails param :
  constrains ep param →
  queryParams !! param = None ∨ queryParams !! param = Some [] →
  allParamsMatch ep queryParams = false.
Proof.
  intros [[l Hl]|[l Hl]] Hq.
  - apply (exact_constraint_fails param l Hl).
    unfold exactParamHolds. by destruct Hq as [-> | ->].
  - apply (regex_constraint_fails param l Hl).
    unfold regexParamHolds. by destruct Hq as [-> | ->].
Qed.

Lemma empty_value_fails param vs :
  rejectsEmpty ep param →
  queryParams !! param = Some ("" :: vs) →
  allParamsMatch ep queryParams = false.
Proof.
  intros [(l & Hl & Hnot)|(l & Hl & Hnot)] Hq.
  - apply (exact_constraint_fails param l Hl).
    unfold exactParamHolds. rewrite Hq.
    apply not_true_is_false. intros Hex.
    apply existsb_exists in Hex as (v & Hv & Heq).
    apply bool_decide_eq_true in Heq. subst v.
    by apply Hnot, list_elem_of_In.
  - apply (regex_constraint_fails param l Hl).
    unfold regexParamHolds. rewrite Hq.
    apply not_true_is_false. intros Hex.
    apply existsb_exists in Hex as (re & Hre & Hm).
    rewrite (Hnot re) in Hm; [discriminate|by apply list_elem_of_In].
Qed.

End Constraints.

Lemma finishFallback_kind fallback :
  MatchKind (finishFallback fallback) ≠ MatchTypeQueryParam.
Proof. by destruct fallback as [[? []]|]. Qed.

Lemma queryParam_result_wins endpoints path method queryParams ep :
  GetEndpointCacheConfigMatch endpoints path method queryParams
  = mkEndpointMatch (Some ep) MatchTypeQueryParam →
  wins path method queryParams ep = true.
Proof.
  unfold GetEndpointCacheConfigMatch. rewrite matchLoop_find.
  destruct (find _ endpoints) as [ep'|] eqn:Hfind.
  - intros [= ->]. by apply find_some in Hfind as [_ ?].
  - intros Heq. exfalso.
    eapply finishFallback_kind. by rewrite Heq.
Qed.

(** C8, amended.  A rule that constrains a query parameter cannot win on a
    request in which that parameter is absent or present without any value;
    and it cannot win on a request whose first value for the parameter is
    the empty string when one of its constraints on the parameter rejects
    the empty string (an allow-list that does not list it, or a pattern list
    none of whose patterns matches it). *)
Theorem C8_unmatched_parameter_fails
    (ep : EndpointCacheConfig) (path method : string)
    (queryParams : gmap string (list string)) (param : string)
    (endpoints : list EndpointCacheConfig) :
  (constrains ep param
   ∧ (queryParams !! param = None ∨ queryParams !! param = Some []))
  ∨ (rejectsEmpty ep param ∧ ∃ vs, queryParams !! param = Some ("" :: vs)) →
  allParamsMatch ep queryParams = false
  ∧ wins path method queryParams ep = false
  ∧ GetEndpointCacheConfigMatch endpoints path method queryParams
    ≠ mkEndpointMatch (Some ep) MatchTypeQueryParam.
Proof.
  intros H.
  assert (Hall : allParamsMatch ep queryParams = false).
  { destruct H as [[Hc Hq]|[Hr [vs Hq]]].
    - by eapply missing_value_fails.
    - by eapply empty_value_fails. }
  assert (Hwins : wins path method queryParams ep = false).
  { unfold wins. rewrite Hall. apply andb_false_r. }
  repeat split; [done..|].
  intros Heq. apply queryParam_result_wins in Heq. congruence.
Qed.

Lemma C8_unmatched_parameter_fails_witness :
  wins "/query" "GET" ∅ (queryRule (24 * hour) ["EOD"; "WEEKLY"; "MONTHLY"]) = false
  ∧ wins "/query" "GET" (functionIs "") (queryRule (5 * minute) ["INTRADAY"]) = false.
Proof.
  split.
  - refine (proj1 (proj2 (C8_unmatched_parameter_fails
              (queryRule (24 * hour) ["EOD"; "WEEKLY"; "MONTHLY"])
              "/query" "GET" ∅ "function" queryRules _))).
    left. split; [left; by eexists | by left].
  - refine (proj1 (proj2 (C8_unmatched_parameter_fails
              (queryRule (5 * minute) ["INTRADAY"])
              "/query" "GET" (functionIs "") "function" queryRules _))).
    right. split; [|by eexists].
    left. exists ["INTRADAY"]. split; [done|].
    intros Hin. apply list_elem_of_In in Hin. simpl in Hin.
    destruct Hin as [Hin|[]]. discriminate Hin.
Defined.

(* ------------------------------------------------------------------ *)
(** ** Rate-limit resolution *)

(** C2.  The code at a rule list in which a pattern rule precedes an
    exact-path rule, for the exact rule's own path: it returns the pattern
    rule (burst 10), where exact-first resolution gives the exact-path rule
    (burst 20). *)
Lemma C2_pattern_before_exact :
  rl_Burst <$> GetEndpointRateLimitConfig adminRules "/api/v1/admin/users" = Some 10
  ∧ rl_Burst <$> rateLimitExactFirst adminRules "/api/v1/admin/users" = Some 20
  ∧ GetEndpointRateLimitConfig adminRules "/api/v1/admin/users"
    ≠ rateLimitExactFirst adminRules "/api/v1/admin/users".
Proof.
  assert (H1 : rl_Burst <$> GetEndpointRateLimitConfig adminRules "/api/v1/admin/users"
               = Some 10) by (vm_compute; reflexivity).
  assert (H2 : rl_Burst <$> rateLimitExactFirst adminRules "/api/v1/admin/users"
               = Some 20) by (vm_compute; reflexivity).
  repeat split; [done..|].
  intros Heq. rewrite Heq, H2 in H1. discriminate H1.
Qed.

(** What the single pass computes: the first rule of the list that hits the
    path, by its exact path or by its compiled pattern. *)
Lemma GetEndpointRateLimitConfig_first_hit (endpoints : list EndpointRateLimitConfig) (path : string) :
  GetEndpointRateLimitConfig endpoints path
  = find (λ ep, exactHit path ep || patternHit path ep) endpoints.
Proof.
  induction endpoints as [|ep rest IH]; simpl; [done|].
  unfold exactHit, patternHit in *.
  destruct (_ && _); simpl; [done|].
  by destruct (regexMatches _ _).
Qed.

(* ------------------------------------------------------------------ *)
(** ** The retry loop *)

Section RetryLoop.

Variable scaleBackoff : Z -> Z.
Variable cfg : HandlerConfig.
Variable wd : World.
Variable r : Request.

Let n := maxAttemptsOf cfg.
Let url := upstreamURL cfg r.
Let loop := retryLoop scaleBackoff cfg wd.

Hypothesis request_ok : newRequestErr wd (Method r) url = None.

Lemma attemptsOf_app tr tr' : attemptsOf (tr ++ tr') = attemptsOf tr ++ attemptsOf tr'.
Proof. apply omap_app. Qed.

Lemma sleepsOf_app tr tr' : sleepsOf (tr ++ tr') = sleepsOf tr ++ sleepsOf tr'.
Proof. apply omap_app. Qed.

(** An iteration that goes round again. *)
Lemma loop_again fuel attempt backoff lastErr now trace :
  attempt < n →
  retried (Retry cfg) (httpClient_Do wd attempt now) = true →
  loop (S fuel) r attempt backoff lastErr now trace
  = loop fuel r (attempt + 1) (nextBackoff scaleBackoff cfg backoff)
      (match httpClient_Do wd attempt now with
       | DoErr err => Some err
       | DoResp _ => lastErr
       end)
      (afterSleep now backoff)
      ((trace ++ [EvUpstream attempt url now]) ++ [EvSleep backoff now]).
Proof.
  intros Hlt Hre. subst loop; simpl. fold n url.
  replace (attempt <=? n) with true by lia. simpl.
  rewrite request_ok.
  destruct (httpClient_Do wd attempt now) as [err|resp]; simpl in *.
  - by replace (attempt <? n) with true by lia.
  - rewrite Hre. by replace (attempt <? n) with true by lia.
Qed.


(** The last iteration, ending in a transport error. *)
Lemma loop_gives_up fuel backoff lastErr now trace err :
  httpClient_Do wd n now = DoErr err →
  loop (S fuel) r n backoff lastErr now trace
  = (inl (errWrap "all retry attempts failed" (Some err)), now,
     trace ++ [EvUpstream n url now]).
Proof.
  intros Hdo. subst loop; simpl. fold n url.
  rewrite Z.leb_refl. simpl.
  by rewrite request_ok, Hdo, Z.ltb_irrefl.
Qed.

End RetryLoop.

Section RetryRuns.

Variable scaleBackoff : Z -> Z.
Variable cfg : HandlerConfig.
Variable wd : World.
Variable r : Request.

Let n := maxAttemptsOf cfg.
Let url := upstreamURL cfg r.
Let loop := retryLoop scaleBackoff cfg wd.
Let next := nextBackoff scaleBackoff cfg.

Hypothesis request_ok : newRequestErr wd (Method r) url = None.

(** The answers do not depend on the time of the call. *)
Variable answer : Z -> RoundTrip.
Hypothesis answer_ok : ∀ attempt now, httpClient_Do wd attempt now = answer attempt.

(** [m] iterations in a row that go round again. *)
Lemma loop_run (m : nat) : ∀ fuel attempt backoff lastErr now trace,
  attempt + Z.of_nat m <= n →
  (∀ j, attempt <= j < attempt + Z.of_nat m → retried (Retry cfg) (answer j) = true) →
  ∃ lastErr' now' trace',
    loop (m + fuel)%nat r attempt backoff lastErr now trace
    = loop fuel r (attempt + Z.of_nat m) (Nat.iter m next backoff) lastErr' now'
        (trace ++ trace')
    ∧ attemptsOf trace' = seqZ attempt (Z.of_nat m)
    ∧ sleepsOf trace' = backoffSeq next m backoff.
Proof.
  induction m as [|m IH]; intros fuel attempt backoff lastErr now trace Hle Hre.
  - exists lastErr, now, []. simpl.
    by rewrite Z.add_0_r, app_nil_r.
  - replace (S m + fuel)%nat with (S (m + fuel)) by lia.
    unfold loop. rewrite (loop_again scaleBackoff cfg wd r request_ok);
      [|fold n; lia|rewrite answer_ok; apply Hre; lia].
    fold loop url next.
    edestruct (IH fuel (attempt + 1) (next backoff)) as (le' & now' & tr' & Heq & Hat & Hsl);
      [lia|intros j Hj; apply Hre; lia|].
    rewrite Heq. clear Heq.
    exists le', now', ([EvUpstream attempt url now; EvSleep backoff now] ++ tr').
    split; [|split].
    + replace (attempt + 1 + Z.of_nat m) with (attempt + Z.of_nat (S m)) by lia.
      rewrite Nat.iter_succ_r.
      f_equal. by rewrite <- !app_assoc.
    + rewrite attemptsOf_app, Hat.
      replace (Z.of_nat (S m)) with (Z.succ (Z.of_nat m)) by lia.
      rewrite (seqZ_cons attempt) by lia.
      replace (Z.pred (Z.succ (Z.of_nat m))) with (Z.of_nat m) by lia.
      replace (Z.succ attempt) with (attempt + 1) by lia.
      done.
    + rewrite sleepsOf_app, Hsl. done.
Qed.


(** The loop from its start to the end when every call fails. *)
Lemma forwardWithRetry_gives_up (now : Z) (err : error) :
  1 <= n →
  (∀ j, 1 <= j <= n → answer j = DoErr err) →
  ∃ now' trace,
    forwardWithRetry scaleBackoff cfg wd r now
    = (inl (errWrap "all retry attempts failed" (Some err)), now', trace)
    ∧ attemptsOf trace = seqZ 1 n
    ∧ sleepsOf trace = backoffSeq next (Z.to_nat (n - 1)) (InitialBackoff (Retry cfg)).
Proof.
  intros Hn Hans.
  unfold forwardWithRetry. fold n loop.
  assert (Hfuel : Z.to_nat n = (Z.to_nat (n - 1) + 1)%nat) by lia.
  rewrite Hfuel. clear Hfuel.
  edestruct (loop_run (Z.to_nat (n - 1)) 1 1
               (InitialBackoff (Retry cfg)) None now [])
    as (le' & now' & tr' & Heq & Hat & Hsl);
    [lia|intros j Hj; rewrite Hans by lia; done|].
  rewrite Heq. clear Heq.
  replace (1 + Z.of_nat (Z.to_nat (n - 1))) with n in * by lia.
  unfold loop. unfold n at 1.
  rewrite (loop_gives_up scaleBackoff cfg wd r request_ok _ _ _ _ _ err);
    [|rewrite answer_ok; apply Hans; fold n; lia].
  eexists _, _. split; [reflexivity|].
  rewrite app_nil_l, attemptsOf_app, sleepsOf_app, Hat, Hsl. simpl.
  split; [|by rewrite app_nil_r].
  replace (Z.of_nat (Z.to_nat (n - 1))) with (n - 1) by lia.
  fold n. replace (seqZ 1 n) with (seqZ 1 ((n - 1) + 1)) by (f_equal; lia).
  rewrite seqZ_app by lia.
  replace (1 + (n - 1)) with n by lia. done.
Qed.

End RetryRuns.



(* ------------------------------------------------------------------ *)
(** ** The handlers around the retry loop *)

Lemma http_Error_status canon w msg code :
  w_status w = None → w_status (http_Error canon w msg code) = Some code.
Proof. intros Hw. unfold http_Error, Write, WriteHeader. simpl. by rewrite Hw. Qed.

Lemma forwardWithRetry_no_attempt scaleBackoff cfg wd r now :
  maxAttemptsOf cfg < 1 →
  forwardWithRetry scaleBackoff cfg wd r now
  = (inl (errWrap "all retry attempts failed" None), now, []).
Proof.
  intros Hn. unfold forwardWithRetry.
  by replace (Z.to_nat (maxAttemptsOf cfg)) with 0%nat by lia.
Qed.

(** C10.  With retry enabled and [max_attempts] below 1 the loop body is
    never entered: the forwarder calls the upstream zero times and returns
    the error that wraps a nil last error, and both handlers that forward
    (the GET path after a cache miss and the path of other methods) answer
    502 without any call having left the process. *)
Theorem C10_no_attempt_when_max_attempts_below_one
    (sha256_hex CanonicalMIMEHeaderKey : string → string) (scaleBackoff : Z → Z)
    (formatRFC3339 : Z → string) (json_Unmarshal : bytes → error + CachedResponse)
    (cfg : HandlerConfig) (wd : World) (w : ResponseWriter) (r : Request) (now : Z)
    (cacheKey : string) (endpointConfig : option EndpointCacheConfig) :
  Enabled (Retry cfg) = true →
  MaxAttempts (Retry cfg) < 1 →
  w_status w = None →
  forwardWithRetry scaleBackoff cfg wd r now
  = (inl (errWrap "all retry attempts failed" None), now, [])
  ∧ forwardAndCache CanonicalMIMEHeaderKey scaleBackoff cfg wd w r now cacheKey endpointConfig
    = (http_Error CanonicalMIMEHeaderKey w "upstream service unavailable" 502, [])
  ∧ forwardRequest CanonicalMIMEHeaderKey scaleBackoff cfg wd w r now
    = (http_Error CanonicalMIMEHeaderKey w "upstream service unavailable" 502, [])
  ∧ w_status (http_Error CanonicalMIMEHeaderKey w "upstream service unavailable" 502)
    = Some 502
  ∧ attemptsOf (ServeHTTP sha256_hex CanonicalMIMEHeaderKey scaleBackoff formatRFC3339
                  json_Unmarshal cfg wd w r now).2 = [].
Proof.
  intros Hen Hmax Hw.
  assert (Hn : maxAttemptsOf cfg < 1) by (unfold maxAttemptsOf; by rewrite Hen).
  pose proof (forwardWithRetry_no_attempt scaleBackoff cfg wd r now Hn) as Hfwd.
  assert (Hfc : ∀ key ep,
    forwardAndCache CanonicalMIMEHeaderKey scaleBackoff cfg wd w r now key ep
    = (http_Error CanonicalMIMEHeaderKey w "upstream service unavailable" 502, [])).
  { intros key ep. unfold forwardAndCache. by rewrite Hfwd. }
  assert (Hfr : forwardRequest CanonicalMIMEHeaderKey scaleBackoff cfg wd w r now
    = (http_Error CanonicalMIMEHeaderKey w "upstream service unavailable" 502, [])).
  { unfold forwardRequest. by rewrite Hfwd. }
  repeat split; [done|apply Hfc|done|by apply http_Error_status|].
  unfold ServeHTTP. destruct (bool_decide _); [by rewrite Hfr|].
  destruct (cache_Get _ _ _) as [[c|] ?]; [done|].
  by rewrite Hfc.
Qed.

Lemma C10_no_attempt_when_max_attempts_below_one_witness :
  forwardWithRetry double (demoConfig retry0)
    (worldAnswering (DoResp (response 200 None)) false) (getQuery "EOD") 0
  = (inl (errWrap "all retry attempts failed" None), 0, []).
Proof.
  refine (proj1 (C10_no_attempt_when_max_attempts_below_one sameName sameName double
            showTime noDecode (demoConfig retry0)
            (worldAnswering (DoResp (response 200 None)) false)
            newResponseWriter (getQuery "EOD") 0 "cache:k" None _ _ _)).
  - reflexivity.
  - vm_compute. reflexivity.
  - reflexivity.
Defined.

Lemma sleepsAfterCancel_all wd trace :
  (∀ t, ctxDone wd t = true) → sleepsAfterCancel wd trace = sleepsOf trace.
Proof.
  intros Hdone. unfold sleepsAfterCancel, sleepsOf.
  induction trace as [|ev trace IH]; [done|].
  destruct ev; cbn; rewrite ?Hdone; by rewrite IH.
Qed.

(** C9 (as stated) fails: with the context cancelled before the first
    attempt, the loop still sleeps 100ms and then 200ms, calls the upstream
    three times and returns only after the third failure. *)
Lemma C9_sleeps_after_cancel :
  let wd := worldAnswering (DoResp (response 200 None)) true in
  let out := forwardWithRetry double (demoConfig retry3) wd (getQuery "EOD") 0 in
  out.1.1 = inl (errWrap "all retry attempts failed" (Some ctxErr))
  ∧ out.1.2 = 300 * ms
  ∧ attemptsOf out.2 = [1; 2; 3]
  ∧ sleepsAfterCancel wd out.2 = [100 * ms; 200 * ms].
Proof. vm_compute. repeat split; reflexivity. Qed.

(** C9, amended.  The request context is handed to every upstream call, so
    a call made once the context is done fails at once with the context's
    error; the backoff waits are plain sleeps that do not look at the
    context.  For a context that is already done, the loop therefore still
    makes every allowed attempt and sleeps the full backoff between them
    before it returns the aggregated failure. *)
Theorem C9_cancelled_loop_runs_to_end
    (scaleBackoff : Z → Z) (cfg : HandlerConfig) (wd : World) (r : Request) (now : Z) :
  newRequestErr wd (Method r) (upstreamURL cfg r) = None →
  (∀ t, ctxDone wd t = true) →
  1 <= maxAttemptsOf cfg →
  ∃ now' trace,
    forwardWithRetry scaleBackoff cfg wd r now
    = (inl (errWrap "all retry attempts failed" (Some ctxErr)), now', trace)
    ∧ attemptsOf trace = seqZ 1 (maxAttemptsOf cfg)
    ∧ sleepsAfterCancel wd trace
      = backoffSeq (nextBackoff scaleBackoff cfg) (Z.to_nat (maxAttemptsOf cfg - 1))
          (InitialBackoff (Retry cfg)).
Proof.
  intros Hreq Hdone Hn.
  destruct (forwardWithRetry_gives_up scaleBackoff cfg wd r Hreq (λ _, DoErr ctxErr)
              ltac:(intros; unfold httpClient_Do; by rewrite Hdone) now ctxErr Hn
              ltac:(done))
    as (now' & trace & Heq & Hat & Hsl).
  exists now', trace. by rewrite sleepsAfterCancel_all.
Qed.

Lemma C9_cancelled_loop_runs_to_end_witness :
  ∃ now' trace,
    forwardWithRetry double (demoConfig retry3)
      (worldAnswering (DoResp (response 200 None)) true) (getQuery "EOD") 0
    = (inl (errWrap "all retry attempts failed" (Some ctxErr)), now', trace)
    ∧ attemptsOf trace = seqZ 1 (maxAttemptsOf (demoConfig retry3))
    ∧ sleepsAfterCancel (worldAnswering (DoResp (response 200 None)) true) trace
      = backoffSeq (nextBackoff double (demoConfig retry3))
          (Z.to_nat (maxAttemptsOf (demoConfig retry3) - 1))
          (InitialBackoff (Retry (demoConfig retry3))).
Proof.
  apply (C9_cancelled_loop_runs_to_end double (demoConfig retry3)
           (worldAnswering (DoResp (response 200 None)) true) (getQuery "EOD") 0).
  - reflexivity.
  - intros t. reflexivity.
  - vm_compute. discriminate.
Defined.

Lemma storeSetsOf_app tr tr' : storeSetsOf (tr ++ tr') = storeSetsOf tr ++ storeSetsOf tr'.
Proof. apply omap_app. Qed.

(** The retry loop never writes to the store. *)
Lemma retryLoop_storeSets scaleBackoff cfg wd r fuel :
  ∀ attempt backoff lastErr now trace,
    storeSetsOf (retryLoop scaleBackoff cfg wd fuel r attempt backoff lastErr now trace).2
    = storeSetsOf trace.
Proof.
  induction fuel as [|fuel IH]; intros attempt backoff lastErr now trace; simpl; [done|].
  destruct (negb _); [done|].
  destruct (newRequestErr _ _ _); [done|].
  destruct (httpClient_Do _ _ _) as [err|resp].
  - destruct (_ <? _); [|simpl; by rewrite storeSetsOf_app, app_nil_r].
    rewrite IH. by rewrite !storeSetsOf_app, !app_nil_r.
  - destruct (_ && _); [|simpl; by rewrite storeSetsOf_app, app_nil_r].
    rewrite IH. by rewrite !storeSetsOf_app, !app_nil_r.
Qed.

Lemma forwardWithRetry_storeSets scaleBackoff cfg wd r now :
  storeSetsOf (forwardWithRetry scaleBackoff cfg wd r now).2 = [].
Proof. unfold forwardWithRetry. by rewrite retryLoop_storeSets. Qed.






(* ------------------------------------------------------------------ *)
(** ** Cache-status headers *)

Section Headers.

Variable canon : string → string.

Lemma written_header w h code body :
  w_header (Write (WriteHeader (withHeader w h) code) body) = h.
Proof. unfold Write, WriteHeader, withHeader. simpl. by destruct (w_status w). Qed.

Lemma Header_Set_lookup (h : gmap string (list string)) name value :
  Header_Set canon h name value !! canon name = Some [value].
Proof. unfold Header_Set. apply lookup_insert_eq. Qed.

Lemma Header_Set_lookup_ne (h : gmap string (list string)) name value k :
  canon name ≠ k → Header_Set canon h name value !! k = h !! k.
Proof. intros Hne. unfold Header_Set. by apply lookup_insert_ne. Qed.

Lemma Header_Add_lookup_ne (h : gmap string (list string)) name value k :
  canon name ≠ k → Header_Add canon h name value !! k = h !! k.
Proof. intros Hne. unfold Header_Add. by apply lookup_insert_ne. Qed.

Lemma http_Error_header w msg code k :
  canon "Content-Length" ≠ k → canon "Content-Type" ≠ k →
  canon "X-Content-Type-Options" ≠ k →
  w_header (http_Error canon w msg code) !! k = w_header w !! k.
Proof.
  intros H1 H2 H3. unfold http_Error. rewrite written_header.
  rewrite !Header_Set_lookup_ne by done.
  unfold Header_Del. by apply lookup_delete_ne.
Qed.

(** Copying adds nothing under a name that the source does not carry. *)
Lemma copyHeaders_lookup_None (dst src : gmap string (list string)) k :
  dst !! k = None →
  (∀ key values, src !! key = Some values → canon key = k → values = []) →
  copyHeaders canon dst src !! k = None.
Proof.
  intros Hdst. unfold copyHeaders.
  apply (map_fold_weak_ind
           (λ acc (m : gmap string (list string)),
              (∀ key values, m !! key = Some values → canon key = k → values = []) →
              acc !! k = None)); [done|].
  intros key values m acc Hfresh IH Hsrc.
  assert (Hacc : acc !! k = None).
  { apply IH. intros key' values' Hm. apply Hsrc.
    rewrite lookup_insert_ne; [done|]. intros ->. congruence. }
  destruct (decide (canon key = k)) as [Heq|Hne].
  - rewrite (Hsrc key values); [done| |done]. apply lookup_insert_eq.
  - clear Hsrc IH. revert acc Hacc.
    induction values as [|v values IHv]; intros acc Hacc; simpl; [done|].
    apply IHv. by rewrite Header_Add_lookup_ne.
Qed.

End Headers.

(** C7 (as stated) fails: a GET request that misses the cache and whose
    upstream calls all fail is answered 502 without any X-Cache header, and
    so is one answered 500 after a body-read failure. *)
Lemma C7_error_responses_unmarked :
  let unreachable := worldAnswering (DoErr (errString "connection refused")) false in
  let truncated :=
    worldAnswering (DoResp (response 200 (Some (errString "unexpected EOF")))) false in
  let serve wd := (ServeHTTP sameName sameName double showTime noDecode
                     (demoConfig retry3) wd newResponseWriter (getQuery "EOD") 0).1 in
  w_status (serve unreachable) = Some 502
  ∧ w_header (serve unreachable) !! "X-Cache" = None
  ∧ w_status (serve truncated) = Some 500
  ∧ w_header (serve truncated) !! "X-Cache" = None.
Proof. vm_compute. repeat split; reflexivity. Qed.

(** C7, amended.  A GET response served from the store carries
    [X-Cache: HIT] and an [X-Cache-Time] holding the RFC3339 form of the
    entry's storage time.  A GET response that relays an upstream response
    carries [X-Cache: MISS], and the handler adds no [X-Cache-Time] to it:
    that header is whatever the copy of the upstream headers left there.
    The error responses (502 when forwarding fails, 500 when the body cannot
    be read) leave both headers as they were on the writer, so on a fresh
    writer they carry neither. *)
Theorem C7_cache_status_headers
    (sha256_hex CanonicalMIMEHeaderKey : string → string) (scaleBackoff : Z → Z)
    (formatRFC3339 : Z → string) (json_Unmarshal : bytes → error + CachedResponse)
    (cfg : HandlerConfig) (wd : World) (w : ResponseWriter) (r : Request) (now : Z) :
  Method r = "GET" →
  cacheHeadersDistinct CanonicalMIMEHeaderKey →
  let out := (ServeHTTP sha256_hex CanonicalMIMEHeaderKey scaleBackoff formatRFC3339
                json_Unmarshal cfg wd w r now).1 in
  let marker := w_header out !! CanonicalMIMEHeaderKey "X-Cache" in
  let stamp := w_header out !! CanonicalMIMEHeaderKey "X-Cache-Time" in
  match (cache_Get json_Unmarshal wd
           (derivedKey sha256_hex CanonicalMIMEHeaderKey cfg r)).1 with
  | Some cached =>
      marker = Some ["HIT"] ∧ stamp = Some [formatRFC3339 (cr_CachedAt cached)]
  | None =>
      match relayed (forwardWithRetry scaleBackoff cfg wd r now).1.1 with
      | Some resp =>
          marker = Some ["MISS"]
          ∧ stamp = copyHeaders CanonicalMIMEHeaderKey (w_header w) (RespHeader resp)
                    !! CanonicalMIMEHeaderKey "X-Cache-Time"
      | None =>
          marker = w_header w !! CanonicalMIMEHeaderKey "X-Cache"
          ∧ stamp = w_header w !! CanonicalMIMEHeaderKey "X-Cache-Time"
      end
  end.
Proof.
  intros Hget [Hne Hnames] out marker stamp. subst marker stamp out.
  apply Forall_cons in Hnames as [[Hl1 Hl2] Hnames].
  apply Forall_cons in Hnames as [[Ht1 Ht2] Hnames].
  apply Forall_cons in Hnames as [[Ho1 Ho2] _].
  unfold ServeHTTP. rewrite Hget.
  rewrite bool_decide_eq_false_2 by (intros H; by apply H).
  unfold derivedKey, matchedRule. rewrite Hget.
  destruct (cache_Get _ _ _) as [[cached|] err]; cbn [fst snd].
  - unfold serveCachedResponse. rewrite written_header.
    rewrite Header_Set_lookup.
    by rewrite Header_Set_lookup_ne, Header_Set_lookup by (by apply not_eq_sym).
  - unfold forwardAndCache.
    destruct (forwardWithRetry _ _ _ _ _) as [[[err'|resp] now'] trace];
      cbn [fst snd relayed].
    + by rewrite !http_Error_header.
    + destruct (BodyErr resp); cbn [fst snd].
      * by rewrite !http_Error_header.
      * rewrite written_header, Header_Set_lookup.
        by rewrite Header_Set_lookup_ne.
Qed.

Lemma C7_cache_status_headers_witness :
  let wd := withStore (worldAnswering (DoResp (response 200 None)) false)
              (RedisData body_ok) in
  let out := (ServeHTTP sameName sameName double showTime decodeStored
                (demoConfig retry3) wd newResponseWriter (getQuery "EOD") 0).1 in
  w_header out !! "X-Cache" = Some ["HIT"]
  ∧ w_header out !! "X-Cache-Time" = Some ["1970-01-01T00:00:00Z"].
Proof.
  refine (C7_cache_status_headers sameName sameName double showTime decodeStored
            (demoConfig retry3)
            (withStore (worldAnswering (DoResp (response 200 None)) false)
               (RedisData body_ok))
            newResponseWriter (getQuery "EOD") 0 _ _).
  - reflexivity.
  - split; [done|]. repeat constructor; done.
Defined.

(* ------------------------------------------------------------------ *)
(** ** Cache keys *)

(** C3 (as stated) fails in its last part: the two requests differ in the
    value of the single key-relevant parameter [a], and the strings that are
    hashed coincide, so the keys are equal whatever the digest. *)
Lemma C3_colliding_requests :
  Values_Get (Query (oddRequest "1&a=1&a=2")) "a" = "1&a=1&a=2"
  ∧ Values_Get (Query (oddRequest "2&a=1&a=1")) "a" = "2&a=1&a=1"
  ∧ Values_Get (Query (oddRequest "1&a=1&a=2")) "a=1&a"
    = Values_Get (Query (oddRequest "2&a=1&a=1")) "a=1&a"
  ∧ keyString sameName (oddRequest "1&a=1&a=2") (Some oddRule)
    = "GET:/api/users:a=1&a=1&a=2&a=1&a=1&a=2&a=1&a=1"
  ∧ ∀ sha256_hex canon : string → string,
      GenerateCacheKey sha256_hex canon (oddRequest "1&a=1&a=2") (Some oddRule)
      = GenerateCacheKey sha256_hex canon (oddRequest "2&a=1&a=1") (Some oddRule).
Proof.
  repeat split; vm_compute; reflexivity.
Qed.

Section KeyParts.

Lemma collectParts_acc (get : string → string) (names acc : list string) :
  foldl (λ parts name,
           let val := get name in
           if bool_decide (val ≠ "") then parts ++ [name +:+ "=" +:+ val] else parts)
        acc names
  = acc ++ (keyed get <$> filter (λ name, get name ≠ "") names).
Proof.
  revert acc. induction names as [|name names IH]; intros acc; simpl.
  - by rewrite app_nil_r.
  - rewrite IH, filter_cons.
    destruct (decide (get name ≠ "")) as [Hval|Hval].
    + rewrite bool_decide_eq_true_2 by done.
      by rewrite fmap_cons, <- app_assoc.
    + by rewrite bool_decide_eq_false_2 by done.
Qed.

Lemma collectParts_filter (get : string → string) (names : list string) :
  collectParts get names = keyed get <$> filter (λ name, get name ≠ "") names.
Proof. unfold collectParts. by rewrite collectParts_acc. Qed.

Lemma collectParts_ext (get1 get2 : string → string) (names : list string) :
  (∀ name, name ∈ names → get1 name = get2 name) →
  collectParts get1 names = collectParts get2 names.
Proof.
  intros Hext. rewrite !collectParts_filter.
  induction names as [|name names IH]; [done|].
  assert (Htail : ∀ n, n ∈ names → get1 n = get2 n)
    by (intros n Hn; apply Hext; by right).
  specialize (IH Htail).
  rewrite !filter_cons, <- (Hext name) by left.
  destruct (decide _); [|done].
  rewrite !fmap_cons, IH. unfold keyed at 1 2. by rewrite (Hext name) by left.
Qed.

Lemma keyString_agree canon rule r1 r2 :
  agreeOnRule canon rule r1 r2 → keyString canon r1 rule = keyString canon r2 rule.
Proof.
  intros (Hm & Hp & Hrule). unfold keyString. rewrite Hm, Hp.
  destruct rule as [ep|]; [|done].
  destruct Hrule as [Hq Hh].
  by rewrite (collectParts_ext _ _ _ Hq), (collectParts_ext _ _ _ Hh).
Qed.

Lemma Values_Get_insert_ne (q : gmap string (list string)) k vs p :
  p ≠ k → Values_Get (<[k := vs]> q) p = Values_Get q p.
Proof. intros Hne. unfold Values_Get. by rewrite lookup_insert_ne. Qed.

Lemma Values_Get_delete_ne (q : gmap string (list string)) k p :
  p ≠ k → Values_Get (delete k q) p = Values_Get q p.
Proof. intros Hne. unfold Values_Get. by rewrite lookup_delete_ne. Qed.

End KeyParts.

Section StringFacts.

Lemma append_cons (c : ascii) (s t : string) : String c s +:+ t = String c (s +:+ t).
Proof. reflexivity. Qed.

Lemma append_nil_l (s : string) : "" +:+ s = s.
Proof. reflexivity. Qed.

Lemma append_nil_r (s : string) : s +:+ "" = s.
Proof. induction s as [|c s IH]; [done|]. by rewrite append_cons, IH. Qed.

Lemma append_assoc (a b c : string) : (a +:+ b) +:+ c = a +:+ (b +:+ c).
Proof. induction a as [|x a IH]; [done|]. by rewrite !append_cons, IH. Qed.

Lemma append_length (a b : string) :
  String.length (a +:+ b) = (String.length a + String.length b)%nat.
Proof. induction a as [|x a IH]; [done|]. rewrite append_cons. simpl. by rewrite IH. Qed.

Lemma append_inj_l (a b c : string) : a +:+ b = a +:+ c → b = c.
Proof.
  induction a as [|x a IH]; [done|]. rewrite !append_cons. intros [= H]. by apply IH.
Qed.

Lemma append_inj_length (a a' b b' : string) :
  String.length a = String.length a' → a +:+ b = a' +:+ b' → a = a' ∧ b = b'.
Proof.
  revert a'. induction a as [|x a IH]; intros [|x' a']; try done.
  rewrite !append_cons. simpl.
  intros [= Hlen] [= -> Happ]. destruct (IH a' Hlen Happ) as [-> ->]. done.
Qed.

Lemma append_inj_r (a b c : string) : a +:+ c = b +:+ c → a = b.
Proof.
  intros Heq. apply (append_inj_length a b c c); [|done].
  apply (f_equal String.length) in Heq. rewrite !append_length in Heq. lia.
Qed.

Lemma length_zero (s : string) : String.length s = 0%nat → s = "".
Proof. by destruct s. Qed.

Lemma compare_refl (s : string) : String.compare s s = Eq.
Proof.
  induction s as [|c s IH]; [done|]. simpl.
  unfold Ascii.compare. by rewrite N.compare_refl.
Qed.

Lemma plainName_cons c s :
  plainName (String c s) = true → c ≠ equalsSign ∧ plainName s = true.
Proof.
  simpl. intros [Hc Hs]%andb_true_iff. split; [|done].
  intros ->. by rewrite Ascii.eqb_refl in Hc.
Qed.

(** The order of ["a=x"] and ["b=y"] is decided within the names when the
    names differ and contain no [=]. *)
Lemma compare_keyed (a b x y x' y' : string) :
  plainName a = true → plainName b = true → a ≠ b →
  String.compare (a +:+ "=" +:+ x) (b +:+ "=" +:+ y)
  = String.compare (a +:+ "=" +:+ x') (b +:+ "=" +:+ y').
Proof.
  revert b. induction a as [|c a IH]; intros [|d b] Ha Hb Hne; try done.
  - apply plainName_cons in Hb as [Hd _].
    rewrite !append_nil_l, !append_cons. simpl.
    destruct (Ascii.compare "=" d) eqn:Hcmp; try done.
    apply Ascii.compare_eq_iff in Hcmp. by subst d.
  - apply plainName_cons in Ha as [Hc _].
    rewrite !append_nil_l, !append_cons. simpl.
    destruct (Ascii.compare c "=") eqn:Hcmp; try done.
    apply Ascii.compare_eq_iff in Hcmp. by subst c.
  - apply plainName_cons in Ha as [_ Ha].
    apply plainName_cons in Hb as [_ Hb].
    rewrite !(append_cons _ a), !(append_cons _ b). simpl.
    destruct (Ascii.compare c d) eqn:Hcmp; try done.
    apply Ascii.compare_eq_iff in Hcmp. subst d.
    apply IH; [done..|]. by intros ->.
Qed.

Lemma leb_keyed (get : string → string) (a b : string) :
  plainName a = true → plainName b = true →
  String.leb (a +:+ "=" +:+ get a) (b +:+ "=" +:+ get b)
  = String.leb (a +:+ "=") (b +:+ "=").
Proof.
  intros Ha Hb. unfold String.leb.
  destruct (decide (a = b)) as [->|Hne].
  - by rewrite !compare_refl.
  - by rewrite (compare_keyed a b (get a) (get b) "" "").
Qed.

End StringFacts.

Section SortedParts.

Lemma insertSorted_perm s l : insertSorted s l ≡ₚ s :: l.
Proof.
  induction l as [|x l IH]; simpl; [done|].
  destruct (String.leb s x); [done|].
  rewrite IH. apply Permutation_swap.
Qed.

Lemma sort_Strings_perm l : sort_Strings l ≡ₚ l.
Proof.
  induction l as [|x l IH]; simpl; [done|].
  by rewrite insertSorted_perm, IH.
Qed.

Lemma insertName_elem x a l : x ∈ insertName a l ↔ x = a ∨ x ∈ l.
Proof.
  induction l as [|y l IH]; simpl.
  - rewrite list_elem_of_singleton, elem_of_nil. tauto.
  - destruct (String.leb _ _).
    + by rewrite elem_of_cons.
    + rewrite !elem_of_cons, IH. tauto.
Qed.

Lemma sortNames_elem x l : x ∈ sortNames l ↔ x ∈ l.
Proof.
  induction l as [|y l IH]; simpl; [done|].
  rewrite insertName_elem, IH, elem_of_cons. tauto.
Qed.

Lemma insertSorted_keyed get a l :
  plainName a = true → Forall (λ name, plainName name = true) l →
  insertSorted (keyed get a) (keyed get <$> l) = keyed get <$> insertName a l.
Proof.
  intros Ha Hl. induction Hl as [|x l Hx Hl IH]; simpl; [done|].
  unfold keyed at 1 2. rewrite (leb_keyed get a x Ha Hx).
  destruct (String.leb _ _); [done|].
  by rewrite fmap_cons, <- IH.
Qed.

Lemma sortNames_plain l :
  Forall (λ name, plainName name = true) l →
  Forall (λ name, plainName name = true) (sortNames l).
Proof.
  rewrite !Forall_forall. intros Hl x Hx. apply Hl. by apply sortNames_elem.
Qed.

Lemma sort_Strings_keyed get l :
  Forall (λ name, plainName name = true) l →
  sort_Strings (keyed get <$> l) = keyed get <$> sortNames l.
Proof.
  intros Hl. unfold sort_Strings.
  induction Hl as [|x l Hx Hl IH]; [done|].
  rewrite fmap_cons. cbn [foldr]. rewrite IH.
  apply insertSorted_keyed; [done|]. by apply sortNames_plain.
Qed.

Lemma strings_Join_cons x rest sep :
  strings_Join (x :: rest) sep
  = x +:+ match rest with [] => "" | _ => sep +:+ strings_Join rest sep end.
Proof. destruct rest; simpl; [by rewrite append_nil_r | done]. Qed.

Lemma partsLength_cons x l :
  partsLength (x :: l) = (S (String.length x) + partsLength l)%nat.
Proof. reflexivity. Qed.

Lemma partsLength_perm l l' : l ≡ₚ l' → partsLength l = partsLength l'.
Proof. intros Hp. unfold partsLength. by rewrite Hp. Qed.

Lemma joined_length l sep :
  String.length sep = 1%nat →
  String.length (match l with [] => "" | sorted => ":" +:+ strings_Join sorted sep end)
  = partsLength l.
Proof.
  intros Hsep. destruct l as [|x l]; [done|].
  rewrite append_length. simpl String.length at 1.
  revert x. induction l as [|y l IH]; intros x.
  - unfold partsLength. simpl. lia.
  - rewrite strings_Join_cons, !append_length, Hsep.
    specialize (IH y). rewrite (partsLength_cons x). lia.
Qed.

Lemma component_length parts sep :
  String.length sep = 1%nat →
  String.length (component parts sep) = partsLength parts.
Proof.
  intros Hsep. unfold component.
  rewrite <- (partsLength_perm _ _ (sort_Strings_perm parts)).
  destruct (sort_Strings parts) as [|x l]; [done|].
  by apply (joined_length (x :: l)).
Qed.

End SortedParts.

Section OneDifference.

Variables (get1 get2 : string → string) (changed : string → bool) (v1 v2 : string).

Let differOnly := differOnly get1 get2 changed v1 v2.

Lemma differOnly_cons name names :
  differOnly (name :: names) →
  (if changed name then get1 name = v1 ∧ get2 name = v2 else get1 name = get2 name)
  ∧ differOnly names.
Proof.
  intros H. split; [apply H; by left|].
  intros n Hn. apply H. by right.
Qed.

Lemma partsLength_collect_cons (get : string → string) name names :
  partsLength (collectParts get (name :: names))
  = ((if decide (get name = "") then 0
      else S (String.length name + 1 + String.length (get name)))
     + partsLength (collectParts get names))%nat.
Proof.
  rewrite !collectParts_filter, filter_cons.
  destruct (decide (get name ≠ "")) as [Hval|Hval].
  - rewrite decide_False by done. rewrite fmap_cons, partsLength_cons.
    unfold keyed at 1. rewrite !append_length. simpl. lia.
  - rewrite decide_True; [done|]. by destruct (decide (get name = "")).
Qed.

(** A shorter value gives a shorter component. *)
Lemma partsLength_shorter names :
  (String.length v1 < String.length v2)%nat →
  differOnly names →
  (partsLength (collectParts get1 names) ≤ partsLength (collectParts get2 names))%nat
  ∧ ((∃ name, name ∈ names ∧ changed name = true) →
     (partsLength (collectParts get1 names) < partsLength (collectParts get2 names))%nat).
Proof.
  intros Hlen. induction names as [|name names IH]; intros Hd.
  - split; [done|]. intros (n & Hn & _). by apply elem_of_nil in Hn.
  - apply differOnly_cons in Hd as [Hname Hd].
    destruct (IH Hd) as [IHle IHlt]. clear IH.
    rewrite !partsLength_collect_cons.
    destruct (changed name) eqn:Hch.
    + destruct Hname as [-> ->].
      assert (v2 ≠ "") by (intros ->; simpl in Hlen; lia).
      rewrite (decide_False (P := v2 = "")) by done.
      split; destruct (decide (v1 = "")); lia.
    + rewrite Hname. split; [lia|].
      intros (n & Hn & Hc). apply elem_of_cons in Hn as [->|Hn]; [congruence|].
      assert (partsLength (collectParts get1 names)
              < partsLength (collectParts get2 names))%nat by (apply IHlt; eauto).
      lia.
Qed.

(** With values of equal length, equal joins force equal values. *)
Lemma join_keyed_equal sep names :
  String.length v1 = String.length v2 →
  differOnly names →
  (∃ name, name ∈ names ∧ changed name = true) →
  strings_Join (keyed get1 <$> names) sep = strings_Join (keyed get2 <$> names) sep →
  v1 = v2.
Proof.
  intros Hlen. induction names as [|name names IH]; intros Hd Hex Hjoin.
  - destruct Hex as (n & Hn & _). by apply elem_of_nil in Hn.
  - apply differOnly_cons in Hd as [Hname Hd].
    rewrite !fmap_cons, !strings_Join_cons in Hjoin.
    destruct (changed name) eqn:Hch.
    + destruct Hname as [H1 H2]. unfold keyed in Hjoin at 1 4.
      rewrite H1, H2, !append_assoc in Hjoin.
      apply append_inj_l, append_inj_l in Hjoin.
      by apply append_inj_length in Hjoin as [? _].
    + unfold keyed in Hjoin at 1 4. rewrite Hname in Hjoin.
      apply append_inj_l in Hjoin.
      assert (Hex' : ∃ n, n ∈ names ∧ changed n = true).
      { destruct Hex as (n & Hn & Hc).
        apply elem_of_cons in Hn as [->|Hn]; [congruence|eauto]. }
      apply (IH Hd Hex').
      destruct names as [|name' names']; [|by apply append_inj_l in Hjoin].
      destruct Hex' as (n & Hn & _). by apply elem_of_nil in Hn.
Qed.

End OneDifference.

Section ComponentDiffers.

Variables (get1 get2 : string → string) (changed : string → bool) (v1 v2 : string).

Lemma differOnly_sym names :
  differOnly get1 get2 changed v1 v2 names → differOnly get2 get1 changed v2 v1 names.
Proof.
  intros H n Hn. specialize (H n Hn).
  destruct (changed n); [tauto | done].
Qed.

Lemma filter_nonempty_same names :
  v1 ≠ "" → v2 ≠ "" →
  differOnly get1 get2 changed v1 v2 names →
  filter (λ name, get1 name ≠ "") names = filter (λ name, get2 name ≠ "") names.
Proof.
  intros H1 H2. induction names as [|name names IH]; intros Hd; [done|].
  apply differOnly_cons in Hd as [Hname Hd].
  rewrite !filter_cons, (IH Hd).
  destruct (changed name).
  - destruct Hname as [-> ->]. by rewrite !decide_True.
  - by rewrite Hname.
Qed.

Lemma component_differs names sep :
  String.length sep = 1%nat →
  Forall (λ name, plainName name = true) names →
  differOnly get1 get2 changed v1 v2 names →
  (∃ name, name ∈ names ∧ changed name = true) →
  v1 ≠ v2 →
  component (collectParts get1 names) sep ≠ component (collectParts get2 names) sep.
Proof.
  intros Hsep Hplain Hd Hex Hne Heq.
  pose proof (f_equal String.length Heq) as Hlen.
  rewrite !component_length in Hlen by done.
  destruct (lt_eq_lt_dec (String.length v1) (String.length v2)) as [[Hlt|Hsame]|Hgt].
  - destruct (partsLength_shorter get1 get2 changed v1 v2 names Hlt Hd) as [_ H].
    specialize (H Hex). lia.
  - assert (H1 : v1 ≠ "").
    { intros ->. apply Hne. symmetry. by apply length_zero. }
    assert (H2 : v2 ≠ "").
    { intros ->. apply Hne. apply length_zero. by rewrite Hsame. }
    clear Hlen. unfold component in Heq.
    rewrite !collectParts_filter in Heq.
    rewrite <- (filter_nonempty_same names H1 H2 Hd) in Heq.
    set (kept := filter (λ name, get1 name ≠ "") names) in *.
    assert (Hkept : ∀ n, n ∈ sortNames kept → n ∈ names).
    { intros n Hn. rewrite sortNames_elem in Hn.
      by apply list_elem_of_filter in Hn as [_ ?]. }
    assert (Hkplain : Forall (λ name, plainName name = true) kept).
    { apply Forall_forall. intros n Hn. rewrite Forall_forall in Hplain.
      apply Hplain. by apply list_elem_of_filter in Hn as [_ ?]. }
    rewrite !sort_Strings_keyed in Heq by done.
    assert (Hex' : ∃ n, n ∈ sortNames kept ∧ changed n = true).
    { destruct Hex as (n & Hn & Hc). exists n. split; [|done].
      rewrite sortNames_elem. apply list_elem_of_filter. split; [|done].
      specialize (Hd n Hn). rewrite Hc in Hd. destruct Hd as [-> _]. done. }
    apply Hne.
    apply (join_keyed_equal get1 get2 changed v1 v2 sep (sortNames kept) Hsame);
      [intros n Hn; by apply Hd, Hkept|done|].
    destruct (sortNames kept) as [|n ns].
    + destruct Hex' as (n & Hn & _). by apply elem_of_nil in Hn.
    + rewrite !fmap_cons in Heq. by apply append_inj_l in Heq.
  - destruct (partsLength_shorter get2 get1 changed v2 v1 names Hgt
                (differOnly_sym names Hd)) as [_ H].
    specialize (H Hex). lia.
Qed.

End ComponentDiffers.

Lemma keyString_components canon r ep :
  keyString canon r (Some ep)
  = Method r +:+ ":" +:+ URLPath r
    +:+ component (collectParts (Values_Get (Query r)) (CacheKeyQueryParams ep)) "&"
    +:+ component (collectParts (Header_Get canon (Header r)) (CacheKeyHeaders ep)) "|".
Proof.
  unfold keyString, appendJoined, component.
  assert (Hnil : ∀ get, sort_Strings (collectParts get []) = []) by done.
  destruct (CacheKeyQueryParams ep) as [|q qs] eqn:Hqs;
    destruct (CacheKeyHeaders ep) as [|h hs] eqn:Hhs; simpl bool_decide; cbv iota.
  - rewrite !Hnil. simpl. by rewrite append_nil_r.
  - rewrite !Hnil.
    destruct (sort_Strings (collectParts _ (h :: hs))) as [|x l]; simpl.
    + by rewrite append_nil_r.
    + done.
  - rewrite !Hnil.
    destruct (sort_Strings (collectParts _ (q :: qs))) as [|x l]; simpl.
    + by rewrite append_nil_r.
    + by rewrite append_nil_r.
  - destruct (sort_Strings (collectParts _ (q :: qs))) as [|x l];
      destruct (sort_Strings (collectParts _ (h :: hs))) as [|y l']; simpl.
    + by rewrite append_nil_r.
    + done.
    + by rewrite append_nil_r.
    + by rewrite !append_assoc.
Qed.

Lemma keyString_differs canon ep r1 r2 p :
  Method r1 = Method r2 → URLPath r1 = URLPath r2 →
  plainNames ep →
  differInQuery canon ep r1 r2 p ∨ differInHeader canon ep r1 r2 p →
  keyString canon r1 (Some ep) ≠ keyString canon r2 (Some ep).
Proof.
  intros Hm Hp [Hpq Hph] Hdiff. rewrite !keyString_components, Hm, Hp.
  intros Heq. do 3 apply append_inj_l in Heq.
  destruct Hdiff as [(Hin & Hne & Hothers & Hhdr)|(Hin & Hne & Hothers & Hqry)].
  - rewrite (collectParts_ext _ _ _ Hhdr) in Heq. apply append_inj_r in Heq.
    revert Heq.
    apply (component_differs _ _ (λ name, bool_decide (name = p))
             (Values_Get (Query r1) p) (Values_Get (Query r2) p) _ "&");
      [done|done| |by exists p; rewrite bool_decide_eq_true|done].
    intros name Hname. case_bool_decide as Hcase; [by subst name|].
    by apply Hothers.
  - rewrite (collectParts_ext _ _ _ Hqry) in Heq. apply append_inj_l in Heq.
    revert Heq.
    apply (component_differs _ _ (λ name, bool_decide (canon name = canon p))
             (Header_Get canon (Header r1) p) (Header_Get canon (Header r2) p) _ "|");
      [done|done| |by exists p; rewrite bool_decide_eq_true|done].
    intros name Hname. case_bool_decide as Hcase; [|by apply Hothers].
    unfold Header_Get. by rewrite Hcase.
Qed.

(** C3, amended.  The key is a function of the method, the path and the
    values of the query parameters and headers that the matched rule lists:
    two requests that agree on these get the same key, and inserting,
    replacing or deleting a query parameter or header that the rule does not
    list (for headers: that no listed name canonicalises to) leaves the key
    unchanged.  If no listed name contains the character [=], two requests
    that differ in exactly one key-relevant value are hashed from different
    strings, so their keys can only coincide through a collision of the
    digest. *)
Theorem C3_cache_key_relevant_values
    (sha256_hex canon : string → string) (rule : option EndpointCacheConfig) :
  (∀ r1 r2, agreeOnRule canon rule r1 r2 →
            GenerateCacheKey sha256_hex canon r1 rule
            = GenerateCacheKey sha256_hex canon r2 rule)
  ∧ (∀ r name,
       (∀ ep, rule = Some ep → name ∉ CacheKeyQueryParams ep) →
       (∀ values, GenerateCacheKey sha256_hex canon
                    (setQuery r (<[name := values]> (Query r))) rule
                  = GenerateCacheKey sha256_hex canon r rule)
       ∧ GenerateCacheKey sha256_hex canon (setQuery r (delete name (Query r))) rule
         = GenerateCacheKey sha256_hex canon r rule)
  ∧ (∀ r name,
       (∀ ep h, rule = Some ep → h ∈ CacheKeyHeaders ep → canon h ≠ name) →
       (∀ values, GenerateCacheKey sha256_hex canon
                    (setHeader r (<[name := values]> (Header r))) rule
                  = GenerateCacheKey sha256_hex canon r rule)
       ∧ GenerateCacheKey sha256_hex canon (setHeader r (delete name (Header r))) rule
         = GenerateCacheKey sha256_hex canon r rule)
  ∧ (∀ ep r1 r2 p,
       rule = Some ep →
       Method r1 = Method r2 → URLPath r1 = URLPath r2 →
       plainNames ep →
       differInQuery canon ep r1 r2 p ∨ differInHeader canon ep r1 r2 p →
       keyString canon r1 rule ≠ keyString canon r2 rule
       ∧ (GenerateCacheKey sha256_hex canon r1 rule
          = GenerateCacheKey sha256_hex canon r2 rule →
          sha256_hex (keyString canon r1 rule) = sha256_hex (keyString canon r2 rule))).
Proof.
  assert (Hagree : ∀ r1 r2, agreeOnRule canon rule r1 r2 →
            GenerateCacheKey sha256_hex canon r1 rule
            = GenerateCacheKey sha256_hex canon r2 rule).
  { intros r1 r2 H. unfold GenerateCacheKey. by rewrite (keyString_agree _ _ _ _ H). }
  split; [done|]. split; [|split].
  - intros r name Hname.
    split; [intros values|]; apply Hagree; (split; [done|split; [done|]]);
      destruct rule as [ep|]; try done; (split; [|done]); intros p Hp; simpl.
    + apply Values_Get_insert_ne. intros ->. by apply (Hname ep).
    + apply Values_Get_delete_ne. intros ->. by apply (Hname ep).
  - intros r name Hname.
    split; [intros values|]; apply Hagree; (split; [done|split; [done|]]);
      destruct rule as [ep|]; try done; (split; [done|]); intros h Hh; simpl;
      unfold Header_Get.
    + apply Values_Get_insert_ne. by apply (Hname ep).
    + apply Values_Get_delete_ne. by apply (Hname ep).
  - intros ep r1 r2 p -> Hm Hp Hplain Hdiff. split.
    + by apply (keyString_differs canon ep r1 r2 p).
    + unfold GenerateCacheKey. apply append_inj_l.
Qed.

Lemma C3_cache_key_relevant_values_witness :
  (∀ sha256_hex : string → string,
     GenerateCacheKey sha256_hex sameName (usersRequest "1" "10" "Bearer token1")
       (Some usersRule)
     = GenerateCacheKey sha256_hex sameName (usersRequest "1" "20" "Bearer token1")
         (Some usersRule))
  ∧ keyString sameName (usersRequest "1" "10" "Bearer token1") (Some usersRule)
    ≠ keyString sameName (usersRequest "1" "10" "Bearer token2") (Some usersRule)
  ∧ keyString sameName (usersRequest "1" "10" "Bearer token1") (Some usersRule)
    ≠ keyString sameName (usersRequest "2" "10" "Bearer token1") (Some usersRule).
Proof.
  split; [|split].
  - intros sha256_hex.
    apply (proj1 (C3_cache_key_relevant_values sha256_hex sameName (Some usersRule))).
    split; [done|split; [done|]]. split.
    + intros p Hp. apply list_elem_of_singleton in Hp as ->. reflexivity.
    + intros h Hh. apply list_elem_of_singleton in Hh as ->. reflexivity.
  - refine (proj1 (proj2 (proj2 (proj2
              (C3_cache_key_relevant_values sameName sameName (Some usersRule))))
              usersRule (usersRequest "1" "10" "Bearer token1")
              (usersRequest "1" "10" "Bearer token2") "Authorization"
              eq_refl eq_refl eq_refl _ _)).
    + split; repeat constructor.
    + right. split; [by apply list_elem_of_singleton|]. split; [done|]. split.
      * intros h Hh Hne. apply list_elem_of_singleton in Hh as ->. done.
      * intros q Hq. apply list_elem_of_singleton in Hq as ->. reflexivity.
  - refine (proj1 (proj2 (proj2 (proj2
              (C3_cache_key_relevant_values sameName sameName (Some usersRule))))
              usersRule (usersRequest "1" "10" "Bearer token1")
              (usersRequest "2" "10" "Bearer token1") "page"
              eq_refl eq_refl eq_refl _ _)).
    + split; repeat constructor.
    + left. split; [by apply list_elem_of_singleton|]. split; [done|]. split.
      * intros q Hq Hne. apply list_elem_of_singleton in Hq as ->. done.
      * intros h Hh. apply list_elem_of_singleton in Hh as ->. reflexivity.
Defined.

(* ------------------------------------------------------------------ *)
(** ** The retry loop in any world *)

Section RetryShape.

Variable scaleBackoff : Z → Z.
Variable cfg : HandlerConfig.
Variable wd : World.
Variable r : Request.

Let n := maxAttemptsOf cfg.
Let next := nextBackoff scaleBackoff cfg.
Let loop := retryLoop scaleBackoff cfg wd.

Lemma nextBackoff_capped backoff : next backoff <= MaxBackoff (Retry cfg).
Proof.
  unfold next, nextBackoff.
  destruct (Z.ltb_spec (MaxBackoff (Retry cfg)) (scaleBackoff backoff)); lia.
Qed.

Lemma backoffSeq_capped k backoff :
  Forall (λ d, d <= MaxBackoff (Retry cfg)) (backoffSeq next k (next backoff)).
Proof.
  revert backoff. induction k as [|k IH]; intros backoff; simpl; [done|].
  constructor; [apply nextBackoff_capped | apply IH].
Qed.

(** What one run of the loop adds to the trace and to the clock, whatever
    the upstream answers. *)
Lemma retryLoop_shape fuel : ∀ attempt backoff lastErr now trace res now' trace',
  loop fuel r attempt backoff lastErr now trace = (res, now', trace') →
  ∃ (m k : nat) (ext : list Event),
    trace' = trace ++ ext
    ∧ attemptsOf ext = seqZ attempt (Z.of_nat m)
    ∧ (m ≤ fuel)%nat
    ∧ (m = 0%nat ∨ attempt + Z.of_nat m - 1 <= n)
    ∧ (k ≤ m)%nat
    ∧ sleepsOf ext = backoffSeq next k backoff
    ∧ now' = now + elapsed (sleepsOf ext).
Proof.
  induction fuel as [|fuel IH];
    intros attempt backoff lastErr now trace res now' trace' Hrun.
  { injection Hrun as <- <- <-. exists 0%nat, 0%nat, [].
    rewrite app_nil_r. simpl. repeat split; auto; lia. }
  assert (Hstop : (now, trace) = (now', trace') →
    ∃ (m k : nat) (ext : list Event),
      trace' = trace ++ ext
      ∧ attemptsOf ext = seqZ attempt (Z.of_nat m)
      ∧ (m ≤ S fuel)%nat
      ∧ (m = 0%nat ∨ attempt + Z.of_nat m - 1 <= n)
      ∧ (k ≤ m)%nat
      ∧ sleepsOf ext = backoffSeq next k backoff
      ∧ now' = now + elapsed (sleepsOf ext)).
  { intros [= <- <-]. exists 0%nat, 0%nat, [].
    rewrite app_nil_r. simpl. repeat split; auto; lia. }
  assert (Hone : attempt <= n →
    (now, trace ++ [EvUpstream attempt (upstreamURL cfg r) now]) = (now', trace') →
    ∃ (m k : nat) (ext : list Event),
      trace' = trace ++ ext
      ∧ attemptsOf ext = seqZ attempt (Z.of_nat m)
      ∧ (m ≤ S fuel)%nat
      ∧ (m = 0%nat ∨ attempt + Z.of_nat m - 1 <= n)
      ∧ (k ≤ m)%nat
      ∧ sleepsOf ext = backoffSeq next k backoff
      ∧ now' = now + elapsed (sleepsOf ext)).
  { intros Hle [= <- <-].
    exists 1%nat, 0%nat, [EvUpstream attempt (upstreamURL cfg r) now].
    simpl. repeat split; auto; lia. }
  assert (Hagain : attempt < n → ∀ lastErr',
    loop fuel r (attempt + 1) (next backoff) lastErr' (afterSleep now backoff)
      ((trace ++ [EvUpstream attempt (upstreamURL cfg r) now])
       ++ [EvSleep backoff now]) = (res, now', trace') →
    ∃ (m k : nat) (ext : list Event),
      trace' = trace ++ ext
      ∧ attemptsOf ext = seqZ attempt (Z.of_nat m)
      ∧ (m ≤ S fuel)%nat
      ∧ (m = 0%nat ∨ attempt + Z.of_nat m - 1 <= n)
      ∧ (k ≤ m)%nat
      ∧ sleepsOf ext = backoffSeq next k backoff
      ∧ now' = now + elapsed (sleepsOf ext)).
  { intros Hlt lastErr' Hrest.
    destruct (IH _ _ _ _ _ _ _ _ Hrest)
      as (m & k & ext & Htr & Hat & Hm & Hn & Hk & Hsl & Hclock).
    exists (S m), (S k),
      ([EvUpstream attempt (upstreamURL cfg r) now; EvSleep backoff now] ++ ext).
    rewrite Htr, Hclock, attemptsOf_app, sleepsOf_app, Hat, Hsl.
    repeat split.
    - by rewrite <- !app_assoc.
    - replace (Z.of_nat (S m)) with (Z.succ (Z.of_nat m)) by lia.
      rewrite (seqZ_cons attempt) by lia.
      replace (Z.pred (Z.succ (Z.of_nat m))) with (Z.of_nat m) by lia.
      by replace (Z.succ attempt) with (attempt + 1) by lia.
    - lia.
    - right. destruct Hn as [->|Hn]; lia.
    - lia.
    - simpl. unfold afterSleep. lia. }
  unfold loop in Hrun. simpl in Hrun. fold n loop next in Hrun.
  destruct (Z.leb_spec attempt n) as [Hle|Hgt]; simpl in Hrun;
    [|apply Hstop; congruence].
  destruct (newRequestErr _ _ _); [apply Hstop; congruence|].
  destruct (httpClient_Do wd attempt now) as [err|resp].
  - destruct (Z.ltb_spec attempt n);
      [by eapply Hagain | apply Hone; [done|congruence]].
  - destruct (isRetryableStatus _ _); simpl in Hrun;
      [|apply Hone; [done|congruence]].
    destruct (Z.ltb_spec attempt n);
      [by eapply Hagain | apply Hone; [done|congruence]].
Qed.

End RetryShape.

(** X1.  Whatever the upstream answers, the forwarder calls it for attempts
    1, 2, ..., m in this order, with m at most the number of attempts
    allowed (max_attempts when retry is enabled, 1 otherwise; none when
    that number is below 1), and it sleeps at most once per call. *)
Theorem forwardWithRetry_attempts_bounded
    (scaleBackoff : Z → Z) (cfg : HandlerConfig) (wd : World) (r : Request) (now : Z) :
  ∃ m : nat,
    attemptsOf (forwardWithRetry scaleBackoff cfg wd r now).2 = seqZ 1 (Z.of_nat m)
    ∧ Z.of_nat m <= Z.max 0 (maxAttemptsOf cfg)
    ∧ (length (sleepsOf (forwardWithRetry scaleBackoff cfg wd r now).2) ≤ m)%nat.
Proof.
  destruct (forwardWithRetry scaleBackoff cfg wd r now) as [[res now'] trace] eqn:Hrun.
  destruct (retryLoop_shape scaleBackoff cfg wd r _ _ _ _ _ _ _ _ _ Hrun)
    as (m & k & ext & -> & Hat & Hm & Hn & Hk & Hsl & _).
  exists m. simpl. rewrite Hat, Hsl. repeat split; [lia|].
  clear -Hk. revert Hk. generalize (InitialBackoff (Retry cfg)).
  revert m. induction k as [|k IH]; intros m b Hk; simpl; [lia|].
  destruct m as [|m]; [lia|]. specialize (IH m (nextBackoff scaleBackoff cfg b)). lia.
Qed.

Lemma backoffSeq_length next k b : length (backoffSeq next k b) = k.
Proof. revert b. induction k as [|k IH]; intros b; simpl; [done|]. by rewrite IH. Qed.

(** X2.  The sleeps follow the backoff schedule whatever the upstream
    answers: the first lasts initial_backoff, each later one the scaled
    previous value cut at max_backoff.  Every sleep but the first is
    therefore at most max_backoff; the first is not cut. *)
Theorem forwardWithRetry_backoff_schedule
    (scaleBackoff : Z → Z) (cfg : HandlerConfig) (wd : World) (r : Request) (now : Z) :
  let sleeps := sleepsOf (forwardWithRetry scaleBackoff cfg wd r now).2 in
  sleeps = backoffSeq (nextBackoff scaleBackoff cfg) (length sleeps)
             (InitialBackoff (Retry cfg))
  ∧ Forall (λ d, d <= MaxBackoff (Retry cfg)) (tail sleeps).
Proof.
  destruct (forwardWithRetry scaleBackoff cfg wd r now) as [[res now'] trace] eqn:Hrun.
  destruct (retryLoop_shape scaleBackoff cfg wd r _ _ _ _ _ _ _ _ _ Hrun)
    as (m & k & ext & -> & _ & _ & _ & _ & Hsl & _).
  simpl. rewrite Hsl, backoffSeq_length. split; [done|].
  destruct k as [|k]; simpl; [done|]. apply backoffSeq_capped.
Qed.



(** X4.  With retry disabled the forwarder makes exactly one attempt and
    never sleeps, whatever max_attempts and the retryable codes are: a
    response is returned whatever its status, a transport error comes back
    wrapped. *)
Theorem forwardWithRetry_disabled
    (scaleBackoff : Z → Z) (cfg : HandlerConfig) (wd : World) (r : Request) (now : Z) :
  Enabled (Retry cfg) = false →
  newRequestErr wd (Method r) (upstreamURL cfg r) = None →
  forwardWithRetry scaleBackoff cfg wd r now
  = (match httpClient_Do wd 1 now with
     | DoErr err => inl (errWrap "all retry attempts failed" (Some err))
     | DoResp resp => inr resp
     end, now, [EvUpstream 1 (upstreamURL cfg r) now]).
Proof.
  intros Hoff Hreq. unfold forwardWithRetry, maxAttemptsOf. rewrite Hoff.
  simpl. unfold maxAttemptsOf, isRetryableStatus. rewrite Hoff, Hreq. simpl.
  by destruct (httpClient_Do wd 1 now).
Qed.

Lemma forwardWithRetry_disabled_witness :
  forwardWithRetry double (demoConfig retryOff)
    (worldAnswering (DoResp (response 503 None)) false) (getQuery "EOD") 0
  = (inr (response 503 None), 0,
     [EvUpstream 1 "http://localhost:9000/query?function=EOD" 0]).
Proof.
  apply (forwardWithRetry_disabled double (demoConfig retryOff)
           (worldAnswering (DoResp (response 503 None)) false) (getQuery "EOD") 0);
    reflexivity.
Defined.

(** X5.  If the calls before the last allowed attempt were all retried
    (transport errors or retryable statuses) and the last attempt ends in a
    transport error, the forwarder returns the aggregated failure wrapping
    that last error, not any response received earlier, and both
    forwarding handlers answer 502 with the fixed message: the error's text
    does not reach the client, and nothing is written to the store. *)
Theorem forwardWithRetry_last_error
    (canon : string → string) (scaleBackoff : Z → Z) (cfg : HandlerConfig) (wd : World)
    (w : ResponseWriter) (r : Request) (now : Z) (err : error)
    (cacheKey : string) (endpointConfig : option EndpointCacheConfig) :
  newRequestErr wd (Method r) (upstreamURL cfg r) = None →
  (∀ t, ctxDone wd t = false) →
  1 <= maxAttemptsOf cfg →
  (∀ j, 1 <= j < maxAttemptsOf cfg → retried (Retry cfg) (upstream wd j) = true) →
  upstream wd (maxAttemptsOf cfg) = DoErr err →
  (forwardWithRetry scaleBackoff cfg wd r now).1.1
  = inl (errWrap "all retry attempts failed" (Some err))
  ∧ attemptsOf (forwardWithRetry scaleBackoff cfg wd r now).2
    = seqZ 1 (maxAttemptsOf cfg)
  ∧ (forwardAndCache canon scaleBackoff cfg wd w r now cacheKey endpointConfig).1
    = http_Error canon w "upstream service unavailable" 502
  ∧ storeSetsOf (forwardAndCache canon scaleBackoff cfg wd w r now cacheKey
                   endpointConfig).2 = []
  ∧ (forwardRequest canon scaleBackoff cfg wd w r now).1
    = http_Error canon w "upstream service unavailable" 502.
Proof.
  intros Hreq Hctx Hn Hre Hlast.
  assert (Hdo : ∀ attempt t, httpClient_Do wd attempt t = upstream wd attempt).
  { intros attempt t. unfold httpClient_Do. by rewrite Hctx. }
  set (n := maxAttemptsOf cfg) in *.
  assert (Hrun : ∃ now' trace,
    forwardWithRetry scaleBackoff cfg wd r now
    = (inl (errWrap "all retry attempts failed" (Some err)), now', trace)
    ∧ attemptsOf trace = seqZ 1 n).
  { unfold forwardWithRetry. fold n.
    assert (Hfuel : Z.to_nat n = (Z.to_nat (n - 1) + 1)%nat) by lia.
    rewrite Hfuel. clear Hfuel.
    destruct (loop_run scaleBackoff cfg wd r Hreq (upstream wd) Hdo
                (Z.to_nat (n - 1)) 1%nat 1 (InitialBackoff (Retry cfg)) None now [])
      as (le' & now' & tr' & Heq & Hat & _); [fold n; lia|intros j Hj; apply Hre; lia|].
    rewrite Heq. clear Heq.
    replace (1 + Z.of_nat (Z.to_nat (n - 1))) with n by lia.
    subst n.
    rewrite (loop_gives_up scaleBackoff cfg wd r Hreq _ _ _ _ _ err)
      by (by rewrite Hdo).
    eexists _, _. split; [reflexivity|].
    rewrite app_nil_l, attemptsOf_app, Hat. simpl.
    replace (Z.of_nat (Z.to_nat (maxAttemptsOf cfg - 1)))
      with (maxAttemptsOf cfg - 1) by lia.
    replace (seqZ 1 (maxAttemptsOf cfg))
      with (seqZ 1 ((maxAttemptsOf cfg - 1) + 1)) by (f_equal; lia).
    rewrite seqZ_app by lia.
    by replace (1 + (maxAttemptsOf cfg - 1)) with (maxAttemptsOf cfg) by lia. }
  destruct Hrun as (now' & trace & Hrun & Hat).
  pose proof (forwardWithRetry_storeSets scaleBackoff cfg wd r now) as Hno.
  unfold forwardAndCache, forwardRequest. rewrite Hrun in *. simpl in *.
  done.
Qed.

Lemma forwardWithRetry_last_error_witness :
  (forwardWithRetry double (demoConfig retry3) worldFlaky (getQuery "EOD") 0).1.1
  = inl (errWrap "all retry attempts failed" (Some (errString "connection refused"))).
Proof.
  refine (proj1 (forwardWithRetry_last_error sameName double (demoConfig retry3)
            worldFlaky newResponseWriter (getQuery "EOD") 0
            (errString "connection refused") "cache:k" None _ _ _ _ _)).
  - reflexivity.
  - intros t. reflexivity.
  - vm_compute. discriminate.
  - intros j Hj. change (maxAttemptsOf (demoConfig retry3)) with 3 in Hj.
    unfold worldFlaky, flakyThenDown. simpl.
    replace (j <? 3) with true by lia. reflexivity.
  - reflexivity.
Defined.

(** X6.  A request for which no upstream request can be built is not
    retried and never reaches the upstream: the forwarder returns at once,
    without a call and without a sleep, with the creation error wrapped
    when at least one attempt is allowed. *)
Theorem forwardWithRetry_request_error
    (scaleBackoff : Z → Z) (cfg : HandlerConfig) (wd : World) (r : Request) (now : Z)
    (err : error) :
  newRequestErr wd (Method r) (upstreamURL cfg r) = Some err →
  forwardWithRetry scaleBackoff cfg wd r now
  = (inl (if 1 <=? maxAttemptsOf cfg
          then errWrap "failed to create upstream request" (Some err)
          else errWrap "all retry attempts failed" None), now, []).
Proof.
  intros Hreq. unfold forwardWithRetry.
  destruct (Z.leb_spec 1 (maxAttemptsOf cfg)) as [Hn|Hn].
  - destruct (Z.to_nat (maxAttemptsOf cfg)) as [|fuel] eqn:Hfuel; [lia|].
    simpl. replace (1 <=? maxAttemptsOf cfg) with true by lia. simpl.
    by rewrite Hreq.
  - by replace (Z.to_nat (maxAttemptsOf cfg)) with 0%nat by lia.
Qed.

Lemma forwardWithRetry_request_error_witness :
  forwardWithRetry double (demoConfig retry3)
    (worldRejecting (errString "net/http: invalid method")) (getQuery "EOD") 0
  = (inl (errWrap "failed to create upstream request"
            (Some (errString "net/http: invalid method"))), 0, []).
Proof.
  apply (forwardWithRetry_request_error double (demoConfig retry3)
           (worldRejecting (errString "net/http: invalid method")) (getQuery "EOD") 0).
  reflexivity.
Defined.

(* ------------------------------------------------------------------ *)
(** ** The handler and the store *)

Lemma storeGetsOf_app tr tr' : storeGetsOf (tr ++ tr') = storeGetsOf tr ++ storeGetsOf tr'.
Proof. apply omap_app. Qed.

(** The retry loop never reads the store. *)
Lemma retryLoop_storeGets scaleBackoff cfg wd r fuel :
  ∀ attempt backoff lastErr now trace,
    storeGetsOf (retryLoop scaleBackoff cfg wd fuel r attempt backoff lastErr now trace).2
    = storeGetsOf trace.
Proof.
  induction fuel as [|fuel IH]; intros attempt backoff lastErr now trace; simpl; [done|].
  destruct (negb _); [done|].
  destruct (newRequestErr _ _ _); [done|].
  destruct (httpClient_Do _ _ _) as [err|resp].
  - destruct (_ <? _); [|simpl; by rewrite storeGetsOf_app, app_nil_r].
    rewrite IH. by rewrite !storeGetsOf_app, !app_nil_r.
  - destruct (_ && _); [|simpl; by rewrite storeGetsOf_app, app_nil_r].
    rewrite IH. by rewrite !storeGetsOf_app, !app_nil_r.
Qed.



(** X8.  A request whose method is not GET bypasses the cache: the handler
    neither reads nor writes the store, and what it does is exactly what
    [forwardRequest] does. *)
Theorem ServeHTTP_non_GET
    (sha256_hex canon : string → string) (scaleBackoff : Z → Z)
    (formatRFC3339 : Z → string) (json_Unmarshal : bytes → error + CachedResponse)
    (cfg : HandlerConfig) (wd : World) (w : ResponseWriter) (r : Request) (now : Z) :
  Method r ≠ "GET" →
  let out := ServeHTTP sha256_hex canon scaleBackoff formatRFC3339 json_Unmarshal
               cfg wd w r now in
  out = forwardRequest canon scaleBackoff cfg wd w r now
  ∧ storeGetsOf out.2 = []
  ∧ storeSetsOf out.2 = [].
Proof.
  intros Hm out. subst out. unfold ServeHTTP.
  rewrite bool_decide_eq_true_2 by done. split; [done|].
  unfold forwardRequest.
  pose proof (retryLoop_storeGets scaleBackoff cfg wd r (Z.to_nat (maxAttemptsOf cfg))
                1 (InitialBackoff (Retry cfg)) None now []) as Hg.
  pose proof (forwardWithRetry_storeSets scaleBackoff cfg wd r now) as Hs.
  fold (forwardWithRetry scaleBackoff cfg wd r now) in Hg.
  destruct (forwardWithRetry _ _ _ _ _) as [[[err|resp] now'] trace]; simpl in *; done.
Qed.

Lemma ServeHTTP_non_GET_witness :
  storeGetsOf (ServeHTTP sameName sameName double showTime noDecode (demoConfig retry3)
                 (worldAnswering (DoResp (response 200 None)) false)
                 newResponseWriter postQuery 0).2 = [].
Proof.
  refine (proj1 (proj2 (ServeHTTP_non_GET sameName sameName double showTime noDecode
            (demoConfig retry3) (worldAnswering (DoResp (response 200 None)) false)
            newResponseWriter postQuery 0 _))).
  discriminate.
Defined.

(** X9.  Whatever the request and the world, the handler issues at most one
    store write, and any write it issues is for a GET request, under the
    key derived for it, of a response whose status is in [200,300), with
    the TTL [getTTL] gives for the matched rule; that TTL is positive
    whenever the default TTL is. *)
Theorem ServeHTTP_store_writes
    (sha256_hex canon : string → string) (scaleBackoff : Z → Z)
    (formatRFC3339 : Z → string) (json_Unmarshal : bytes → error + CachedResponse)
    (cfg : HandlerConfig) (wd : World) (w : ResponseWriter) (r : Request) (now : Z) :
  let writes := storeSetsOf (ServeHTTP sha256_hex canon scaleBackoff formatRFC3339
                               json_Unmarshal cfg wd w r now).2 in
  (length writes ≤ 1)%nat
  ∧ ∀ key entry ttl, (key, entry, ttl) ∈ writes →
      Method r = "GET"
      ∧ key = derivedKey sha256_hex canon cfg r
      ∧ 200 <= cr_StatusCode entry < 300
      ∧ ttl = getTTL cfg (matchedRule cfg r)
      ∧ (0 < DefaultTTL cfg → 0 < ttl).
Proof.
  intros writes. subst writes. unfold ServeHTTP.
  case_bool_decide as Hm.
  - destruct (ServeHTTP_non_GET sha256_hex canon scaleBackoff formatRFC3339
                json_Unmarshal cfg wd w r now Hm) as (_ & _ & Hs).
    unfold ServeHTTP in Hs. rewrite bool_decide_eq_true_2 in Hs by done.
    rewrite Hs. split; [simpl; lia|]. intros key entry ttl Hin.
    by apply elem_of_nil in Hin.
  - assert (Hget : Method r = "GET") by (by destruct (decide (Method r = "GET"))).
    unfold derivedKey, matchedRule.
    set (rule := GetEndpointCacheConfig _ _ _ _).
    set (key := GenerateCacheKey _ _ _ _).
    destruct (cache_Get _ _ _) as [[c|] err].
    { split; [simpl; lia|]. intros ??? Hin. by apply elem_of_nil in Hin. }
    unfold forwardAndCache.
    pose proof (forwardWithRetry_storeSets scaleBackoff cfg wd r now) as Hs.
    destruct (forwardWithRetry _ _ _ _ _) as [[[err'|resp] now'] trace]; simpl in Hs.
    { simpl. rewrite Hs. split; [simpl; lia|]. intros ??? Hin.
      by apply elem_of_nil in Hin. }
    destruct (BodyErr resp).
    { simpl. rewrite Hs. split; [simpl; lia|]. intros ??? Hin.
      by apply elem_of_nil in Hin. }
    destruct ((200 <=? StatusCode resp) && (StatusCode resp <? 300)) eqn:Hrange.
    + apply andb_true_iff in Hrange as [Hlo Hhi].
      apply Z.leb_le in Hlo. apply Z.ltb_lt in Hhi.
      simpl. rewrite storeSetsOf_app, Hs. simpl. split; [lia|].
      intros k e t Hel. apply list_elem_of_singleton in Hel.
      injection Hel as -> -> ->. simpl.
      repeat split; try done; try lia.
      intros Hdef. unfold getTTL. destruct rule as [ep|]; [|done].
      destruct (Z.ltb_spec 0 (TTL ep)); lia.
    + simpl. rewrite Hs. split; [simpl; lia|]. intros ??? Hel.
      by apply elem_of_nil in Hel.
Qed.

Lemma storeAfter_app marshal tr tr' get :
  storeAfter marshal (tr ++ tr') get = storeAfter marshal tr' (storeAfter marshal tr get).
Proof. unfold storeAfter. by rewrite foldl_app. Qed.

Lemma storeAfter_no_sets marshal trace get :
  storeSetsOf trace = [] → storeAfter marshal trace get = get.
Proof.
  revert get. induction trace as [|ev trace IH]; intros get Hno; [done|].
  destruct ev; cbn in Hno; try discriminate; cbn; by apply IH.
Qed.

(** X10.  A GET request that misses the cache, obtains a response with a
    status in [200,300) and reads its body in full leaves the store such
    that, as long as the store keeps the entry and decoding gives back the
    encoded entry, the same request is then served from the cache: no upstream
    call is made, whatever the upstream would answer, and the entry served
    carries the status, headers and body of the first response and the time
    of its storage. *)
Theorem ServeHTTP_miss_then_hit
    (sha256_hex canon : string → string) (scaleBackoff : Z → Z)
    (formatRFC3339 : Z → string)
    (json_Marshal : CachedResponse → bytes)
    (json_Unmarshal : bytes → error + CachedResponse)
    (cfg : HandlerConfig) (wd wd' : World) (w w' : ResponseWriter) (r : Request)
    (now now1 now2 : Z) (resp : Response) (trace : list Event) :
  json_Unmarshal
    (json_Marshal
       (mkCachedResponse (StatusCode resp) (RespHeader resp) (BodyData resp) now1))
  = inr (mkCachedResponse (StatusCode resp) (RespHeader resp) (BodyData resp) now1) →
  Method r = "GET" →
  (cache_Get json_Unmarshal wd (derivedKey sha256_hex canon cfg r)).1 = None →
  forwardWithRetry scaleBackoff cfg wd r now = (inr resp, now1, trace) →
  BodyErr resp = None →
  200 <= StatusCode resp < 300 →
  let first := ServeHTTP sha256_hex canon scaleBackoff formatRFC3339 json_Unmarshal
                 cfg wd w r now in
  let later := withReads wd' (storeAfter json_Marshal first.2 (redisGet wd)) in
  ServeHTTP sha256_hex canon scaleBackoff formatRFC3339 json_Unmarshal cfg later w' r now2
  = (serveCachedResponse canon formatRFC3339 w'
       (mkCachedResponse (StatusCode resp) (RespHeader resp) (BodyData resp) now1),
     [EvStoreGet (derivedKey sha256_hex canon cfg r)]).
Proof.
  intros Hjson Hget Hmiss Hfwd Hbody Hrange first later.
  pose proof (forwardWithRetry_storeSets scaleBackoff cfg wd r now) as Hno.
  rewrite Hfwd in Hno. simpl in Hno.
  assert (Hfirst : first.2
    = (EvStoreGet (derivedKey sha256_hex canon cfg r) :: trace)
      ++ [EvStoreSet (derivedKey sha256_hex canon cfg r)
            (mkCachedResponse (StatusCode resp) (RespHeader resp) (BodyData resp) now1)
            (getTTL cfg (matchedRule cfg r))]).
  { subst first. unfold ServeHTTP. rewrite Hget.
    rewrite bool_decide_eq_false_2 by (intros H; by apply H).
    unfold derivedKey, matchedRule in *. rewrite Hget in *.
    destruct (cache_Get _ wd _) as [cached err]. simpl in Hmiss. subst cached.
    unfold forwardAndCache. rewrite Hfwd, Hbody.
    replace (200 <=? StatusCode resp) with true by lia.
    replace (StatusCode resp <? 300) with true by lia. done. }
  assert (Hread : redisGet later (derivedKey sha256_hex canon cfg r)
    = RedisData (json_Marshal
        (mkCachedResponse (StatusCode resp) (RespHeader resp) (BodyData resp) now1))).
  { subst later. simpl. rewrite Hfirst, storeAfter_app.
    rewrite (storeAfter_no_sets _ (_ :: trace)) by done.
    simpl. by rewrite bool_decide_eq_true_2. }
  clearbody later. clear Hfirst first.
  unfold ServeHTTP. rewrite Hget.
  rewrite bool_decide_eq_false_2 by (intros H; by apply H).
  unfold derivedKey, matchedRule in *. rewrite Hget in *.
  unfold cache_Get. by rewrite Hread, Hjson.
Qed.

Lemma ServeHTTP_miss_then_hit_witness :
  let wd := worldAnswering (DoResp (response 200 None)) false in
  let first := ServeHTTP sameName sameName double showTime decodeBody (demoConfig retry3)
                 wd newResponseWriter (getQuery "EOD") 0 in
  let later := withReads (worldAnswering (DoErr (errString "connection refused")) false)
                 (storeAfter encodeBody first.2 (redisGet wd)) in
  ServeHTTP sameName sameName double showTime decodeBody (demoConfig retry3) later
    newResponseWriter (getQuery "EOD") 5
  = (serveCachedResponse sameName showTime newResponseWriter
       (mkCachedResponse 200 {[ "Content-Type" := ["text/plain"] ]} body_ok 0),
     [EvStoreGet (derivedKey sameName sameName (demoConfig retry3) (getQuery "EOD"))]).
Proof.
  refine (ServeHTTP_miss_then_hit sameName sameName double showTime encodeBody decodeBody
            (demoConfig retry3) (worldAnswering (DoResp (response 200 None)) false)
            (worldAnswering (DoErr (errString "connection refused")) false)
            newResponseWriter newResponseWriter (getQuery "EOD") 0 0 5
            (response 200 None)
            [EvUpstream 1 "http://localhost:9000/query?function=EOD" 0] _ _ _ _ _ _).
  - reflexivity.
  - reflexivity.
  - reflexivity.
  - vm_compute. reflexivity.
  - reflexivity.
  - simpl. lia.
Defined.

(* ------------------------------------------------------------------ *)
(** ** Relaying headers *)

Section CopyHeaders.

Variable canon : string → string.





End CopyHeaders.



(* ------------------------------------------------------------------ *)
(** ** More on rule resolution *)

Lemma resolveCache_eq endpoints path method queryParams :
  GetEndpointCacheConfigMatch endpoints path method queryParams
  = resolveCache endpoints path method queryParams.
Proof.
  unfold GetEndpointCacheConfigMatch, resolveCache. rewrite matchLoop_find.
  destruct (find (wins _ _ _) _); [done|].
  destruct (find (isFallback _ _) _) as [ep|]; simpl; [|done].
  unfold fallbackKind. by destruct (pathMatch_kind path ep) as [-> | ->].
Qed.

(** X12.  The rule that cache resolution returns is one of the configured
    rules, lists the request's method, matches the request's path, and, if
    it is discriminated, has all its query-parameter constraints satisfied;
    no rule is returned exactly when no configured rule wins and none is an
    applicable fallback. *)
Theorem GetEndpointCacheConfig_sound
    (endpoints : list EndpointCacheConfig) (path method : string)
    (queryParams : gmap string (list string)) :
  match GetEndpointCacheConfig endpoints path method queryParams with
  | Some ep =>
      ep ∈ endpoints
      ∧ slices_Contains (Methods ep) method = true
      ∧ (pathMatch ep path).1 = true
      ∧ (if hasQueryParamMatching ep then allParamsMatch ep queryParams = true else True)
  | None =>
      Forall (λ ep, wins path method queryParams ep = false
                    ∧ isFallback path method ep = false) endpoints
  end.
Proof.
  unfold GetEndpointCacheConfig. rewrite resolveCache_eq. unfold resolveCache.
  destruct (find (wins _ _ _) _) as [ep|] eqn:Hwin.
  - apply find_some in Hwin as [Hin Hw]. simpl.
    unfold wins, eligible in Hw.
    apply andb_true_iff in Hw as [[[Hm Hp]%andb_true_iff Hq]%andb_true_iff Hall].
    rewrite Hq. by rewrite list_elem_of_In.
  - destruct (find (isFallback _ _) _) as [ep|] eqn:Hfb; simpl.
    + apply find_some in Hfb as [Hin Hf].
      unfold isFallback, eligible in Hf.
      apply andb_true_iff in Hf as [[Hm Hp]%andb_true_iff Hq].
      apply negb_true_iff in Hq. rewrite Hq. by rewrite list_elem_of_In.
    + apply Forall_forall. intros ep Hin. apply list_elem_of_In in Hin.
      split; [by apply (find_none _ _ Hwin) | by apply (find_none _ _ Hfb)].
Qed.

Lemma find_filter {A} (p keep : A → bool) (l : list A) :
  (∀ x, p x = true → keep x = true) →
  find p (List.filter keep l) = find p l.
Proof.
  intros Hkeep. induction l as [|x l IH]; simpl; [done|].
  destruct (keep x) eqn:Hk; simpl.
  - by rewrite IH.
  - rewrite IH. destruct (p x) eqn:Hp; [|done].
    rewrite (Hkeep x Hp) in Hk. discriminate.
Qed.

(** X13.  Rules that do not list the request's method or do not match its
    path have no influence: resolution over the whole rule list gives the
    same rule and the same match kind as resolution over the applicable
    rules alone. *)
Theorem GetEndpointCacheConfigMatch_applicable_only
    (endpoints : list EndpointCacheConfig) (path method : string)
    (queryParams : gmap string (list string)) :
  GetEndpointCacheConfigMatch endpoints path method queryParams
  = GetEndpointCacheConfigMatch
      (List.filter (λ ep, eligible ep path method) endpoints) path method queryParams.
Proof.
  rewrite !resolveCache_eq. unfold resolveCache.
  rewrite !find_filter; [done| |].
  - intros ep. unfold isFallback. by intros [? _]%andb_true_iff.
  - intros ep. unfold wins. by intros [[? _]%andb_true_iff _]%andb_true_iff.
Qed.

Lemma forallb_eq {A} (f g : A → bool) (l : list A) :
  (∀ x, f x = g x) → forallb f l = forallb g l.
Proof. intros Hfg. induction l as [|x l IH]; simpl; [done|]. by rewrite Hfg, IH. Qed.

Lemma find_eq {A} (f g : A → bool) (l : list A) :
  (∀ x, f x = g x) → find f l = find g l.
Proof. intros Hfg. induction l as [|x l IH]; simpl; [done|]. by rewrite Hfg, IH. Qed.

(** X14.  Only the first value of a query parameter counts: two query
    strings that give every parameter the same first value (or both none)
    resolve to the same rule with the same match kind, and give the same
    cache key under every rule. *)
Theorem first_value_only
    (sha256_hex canon : string → string) (endpoints : list EndpointCacheConfig)
    (path method : string) (q1 q2 : gmap string (list string)) :
  (∀ param, firstValue q1 param = firstValue q2 param) →
  GetEndpointCacheConfigMatch endpoints path method q1
  = GetEndpointCacheConfigMatch endpoints path method q2
  ∧ ∀ r rule, GenerateCacheKey sha256_hex canon (setQuery r q1) rule
              = GenerateCacheKey sha256_hex canon (setQuery r q2) rule.
Proof.
  intros Hfirst.
  assert (Hexact : ∀ param allowed,
    exactParamHolds q1 param allowed = exactParamHolds q2 param allowed).
  { intros param allowed. specialize (Hfirst param).
    unfold exactParamHolds, firstValue in *.
    destruct (q1 !! param) as [[|v1 l1]|], (q2 !! param) as [[|v2 l2]|];
      by simplify_eq. }
  assert (Hregex : ∀ param res,
    regexParamHolds q1 param res = regexParamHolds q2 param res).
  { intros param res. specialize (Hfirst param).
    unfold regexParamHolds, firstValue in *.
    destruct (q1 !! param) as [[|v1 l1]|], (q2 !! param) as [[|v2 l2]|];
      by simplify_eq. }
  split.
  - rewrite !resolveCache_eq. unfold resolveCache.
    rewrite (find_eq (wins path method q1) (wins path method q2)); [done|].
    intros ep. unfold wins, allParamsMatch.
    by rewrite (forallb_eq _ (λ kv, exactParamHolds q2 kv.1 kv.2)),
               (forallb_eq _ (λ kv, regexParamHolds q2 kv.1 kv.2)).
  - intros r rule. unfold GenerateCacheKey. f_equal. f_equal.
    apply keyString_agree. split; [done|]. split; [done|].
    destruct rule as [ep|]; [|done]. split; [|done].
    intros p _. simpl. specialize (Hfirst p). unfold Values_Get, firstValue in *.
    destruct (q1 !! p) as [[|v1 l1]|], (q2 !! p) as [[|v2 l2]|];
      by simplify_eq.
Qed.

Lemma first_value_only_witness :
  GetEndpointCacheConfigMatch queryRules "/query" "GET" {[ "function" := ["EOD"; "INTRADAY"] ]}
  = GetEndpointCacheConfigMatch queryRules "/query" "GET" (functionIs "EOD").
Proof.
  refine (proj1 (first_value_only sameName sameName queryRules "/query" "GET"
            {[ "function" := ["EOD"; "INTRADAY"] ]} (functionIs "EOD") _)).
  intros param. unfold firstValue, functionIs.
  destruct (decide (param = "function")) as [->|Hne].
  - by rewrite !lookup_singleton_eq.
  - by rewrite !lookup_singleton_ne.
Defined.

(* ------------------------------------------------------------------ *)
(** ** More on cache keys *)

Section SortUnique.

Lemma leb_false_flip s x : String.leb s x = false → String.le x s.
Proof.
  intros Hsx. destruct (String.leb_total s x) as [H|H]; [congruence|].
  unfold String.le. by rewrite H.
Qed.

Lemma insertSorted_Sorted s l :
  Sorted String.le l → Sorted String.le (insertSorted s l).
Proof.
  induction l as [|x l IH]; intros Hl; simpl.
  - by repeat constructor.
  - destruct (String.leb s x) eqn:Hsx.
    + constructor; [done|]. constructor. unfold String.le. by rewrite Hsx.
    + apply Sorted_inv in Hl as [Hl Hhd]. constructor; [by apply IH|].
      destruct l as [|y l]; simpl.
      * constructor. by apply leb_false_flip.
      * destruct (String.leb s y); constructor.
        -- by apply leb_false_flip.
        -- by apply HdRel_inv in Hhd.
Qed.

Lemma sort_Strings_Sorted l : Sorted String.le (sort_Strings l).
Proof.
  induction l as [|x l IH]; simpl; [constructor|]. by apply insertSorted_Sorted.
Qed.

(** Sorting forgets the order of its input. *)
Lemma sort_Strings_permutation l l' : l ≡ₚ l' → sort_Strings l = sort_Strings l'.
Proof.
  intros Hp. apply (Sorted_unique String.le); try apply sort_Strings_Sorted.
  by rewrite !sort_Strings_perm.
Qed.

Lemma collectParts_permutation (get : string → string) names names' :
  names ≡ₚ names' → collectParts get names ≡ₚ collectParts get names'.
Proof. intros Hp. rewrite !collectParts_filter. by rewrite Hp. Qed.

End SortUnique.

(** X15.  The key does not depend on the order in which a rule lists its
    key-relevant query parameters and headers: two rules whose lists are
    permutations of each other give every request the same key. *)
Theorem GenerateCacheKey_order_independent
    (sha256_hex canon : string → string) (r : Request) (ep ep' : EndpointCacheConfig) :
  CacheKeyQueryParams ep ≡ₚ CacheKeyQueryParams ep' →
  CacheKeyHeaders ep ≡ₚ CacheKeyHeaders ep' →
  GenerateCacheKey sha256_hex canon r (Some ep)
  = GenerateCacheKey sha256_hex canon r (Some ep').
Proof.
  intros Hq Hh. unfold GenerateCacheKey. rewrite !keyString_components.
  unfold component.
  rewrite (sort_Strings_permutation _ _
             (collectParts_permutation (Values_Get (Query r)) _ _ Hq)).
  by rewrite (sort_Strings_permutation _ _
                (collectParts_permutation (Header_Get canon (Header r)) _ _ Hh)).
Qed.

Lemma GenerateCacheKey_order_independent_witness :
  GenerateCacheKey sameName sameName (usersRequest "1" "10" "Bearer token1")
    (Some pagedRule)
  = GenerateCacheKey sameName sameName (usersRequest "1" "10" "Bearer token1")
      (Some pagedRuleSwapped).
Proof.
  apply (GenerateCacheKey_order_independent sameName sameName
           (usersRequest "1" "10" "Bearer token1") pagedRule pagedRuleSwapped).
  - apply Permutation_swap.
  - reflexivity.
Defined.

(** X16.  The rule that rate-limit resolution returns is one of the
    configured rules and hits the path, by its non-empty exact path or by
    its compiled pattern, and no rule before it in the list does; no rule is
    returned exactly when no configured rule hits.  In particular a rule
    with an empty path and no compiled pattern is never returned. *)
Theorem GetEndpointRateLimitConfig_sound
    (endpoints : list EndpointRateLimitConfig) (path : string) :
  match GetEndpointRateLimitConfig endpoints path with
  | Some ep =>
      ∃ before after,
        endpoints = before ++ ep :: after
        ∧ exactHit path ep || patternHit path ep = true
        ∧ Forall (λ ep', exactHit path ep' || patternHit path ep' = false) before
  | None => Forall (λ ep, exactHit path ep || patternHit path ep = false) endpoints
  end.
Proof.
  induction endpoints as [|ep rest IH]; simpl; [constructor|].
  fold (exactHit path ep). fold (patternHit path ep).
  destruct (exactHit path ep) eqn:He; simpl.
  { exists [], rest. by rewrite He. }
  destruct (patternHit path ep) eqn:Hp; simpl.
  { exists [], rest. by rewrite He, Hp. }
  destruct (GetEndpointRateLimitConfig rest path) as [hit|].
  - destruct IH as (before & after & -> & Hhit & Hbefore).
    exists (ep :: before), after. split; [done|]. split; [done|].
    constructor; [by rewrite He, Hp | done].
  - constructor; [by rewrite He, Hp | done].
Qed.

(* ------------------------------------------------------------------ *)
(** ** Compiling the patterns *)

Section CompileFacts.

Variable regexp_Compile : string → error + Regexp.
Variable quoted : string → string.

Lemma compilePatterns_error param patterns err :
  compilePatterns regexp_Compile quoted param patterns (inl err) = inl err.
Proof.
  unfold compilePatterns. induction patterns as [|p ps IH]; [done|].
  cbn [foldl]. exact IH.
Qed.

Lemma compilePatterns_cons param p ps acc :
  compilePatterns regexp_Compile quoted param (p :: ps) acc
  = compilePatterns regexp_Compile quoted param ps
      match acc with
      | inl err => inl err
      | inr compiled =>
          match regexp_Compile p with
          | inl err =>
              inl (errWrap ("invalid query param regex pattern for param "
                              +:+ quoted param) (Some err))
          | inr regex =>
              inr (<[ param := default [] (compiled !! param) ++ [regex] ]> compiled)
          end
      end.
Proof. reflexivity. Qed.

(** The patterns of one parameter: either all compile and are appended, in
    order, to what the parameter had, the other parameters untouched, or
    one of them is invalid. *)
Lemma compilePatterns_spec param patterns compiled :
  match compilePatterns regexp_Compile quoted param patterns (inr compiled) with
  | inr compiled' =>
      (∃ res, compileTo regexp_Compile patterns res
              ∧ compiled' !! param
                = match patterns with
                  | [] => compiled !! param
                  | _ => Some (default [] (compiled !! param) ++ res)
                  end)
      ∧ ∀ other, other ≠ param → compiled' !! other = compiled !! other
  | inl _ =>
      ∃ pattern err, pattern ∈ patterns ∧ regexp_Compile pattern = inl err
  end.
Proof.
  revert compiled. induction patterns as [|p ps IH]; intros compiled.
  - cbn. split; [|done]. exists []. split; [constructor|done].
  - rewrite compilePatterns_cons.
    destruct (regexp_Compile p) as [err|regex] eqn:Hp.
    + rewrite compilePatterns_error.
      exists p, err. split; [left|done].
    + specialize (IH (<[param:=default [] (compiled !! param) ++ [regex]]> compiled)).
      destruct (compilePatterns _ _ _ _ _) as [err|compiled'].
      * destruct IH as (pattern & e & Hin & He).
        exists pattern, e. split; [by right|done].
      * destruct IH as [(res & Hres & Hlook) Hother]. split.
        -- exists (regex :: res). split; [by constructor|].
           rewrite Hlook, lookup_insert_eq.
           destruct ps as [|q qs].
           ++ inversion Hres; subst. done.
           ++ cbn [default]. unfold id. by rewrite <- app_assoc.
        -- intros other Hne. rewrite Hother by done.
           by rewrite lookup_insert_ne.
Qed.

Lemma compileQueryParamRegex_spec m :
  compiledFrom regexp_Compile m (compileQueryParamRegex regexp_Compile quoted m).
Proof.
  unfold compileQueryParamRegex.
  apply (map_fold_weak_ind (λ acc m, compiledFrom regexp_Compile m acc)).
  - intros param. by rewrite lookup_empty.
  - intros param patterns m' acc Hfresh IH.
    destruct acc as [err|compiled].
    + rewrite compilePatterns_error. cbn in *.
      destruct IH as (k & ps & p & e & Hk & Hin & He).
      exists k, ps, p, e. split; [|done].
      rewrite lookup_insert_ne; [done|]. intros ->. congruence.
    + pose proof (compilePatterns_spec param patterns compiled) as Hspec.
      destruct (compilePatterns _ _ _ _ _) as [err|compiled'].
      * destruct Hspec as (p & e & Hin & He).
        exists param, patterns, p, e. by rewrite lookup_insert_eq.
      * destruct Hspec as [(res & Hres & Hlook) Hother].
        cbn in IH. intros k.
        destruct (decide (k = param)) as [->|Hne].
        -- rewrite lookup_insert_eq, Hlook.
           specialize (IH param). rewrite Hfresh in IH.
           destruct patterns as [|p ps]; [done|].
           exists res. rewrite IH. done.
        -- rewrite lookup_insert_ne by done. rewrite Hother by done.
           apply IH.
Qed.

Lemma compileTo_valid patterns res pattern :
  compileTo regexp_Compile patterns res → pattern ∈ patterns →
  ∃ regex, regexp_Compile pattern = inr regex.
Proof.
  induction 1 as [|p r ps rs Hp _ IH]; intros Hin.
  - by apply elem_of_nil in Hin.
  - apply elem_of_cons in Hin as [->|Hin]; [by exists r|by apply IH].
Qed.

End CompileFacts.

Section LoadFacts.

Variable regexp_Compile : string → error + Regexp.
Variable quoted : string → string.

Lemma compileQueryParamRegex_succeeds m :
  succeeds (compileQueryParamRegex regexp_Compile quoted m)
  ↔ ¬ hasInvalidPattern regexp_Compile m.
Proof.
  pose proof (compileQueryParamRegex_spec regexp_Compile quoted m) as Hspec.
  destruct (compileQueryParamRegex _ _ _) as [err|compiled]; cbn in Hspec.
  - split; [intros [a Ha]; discriminate|]. intros Hno. by destruct Hno.
  - split; [|by exists compiled]. intros _ (param & patterns & p & e & Hm & Hin & He).
    specialize (Hspec param). rewrite Hm in Hspec.
    destruct patterns as [|q qs]; [by apply elem_of_nil in Hin|].
    destruct Hspec as (res & Hres & _).
    destruct (compileTo_valid _ _ _ _ Hres Hin) as [regex Hregex]. congruence.
Qed.

Lemma hasInvalidPattern_empty : ¬ hasInvalidPattern regexp_Compile ∅.
Proof. intros (param & patterns & p & e & Hm & _). by rewrite lookup_empty in Hm. Qed.

Lemma size_zero_empty {A} (m : gmap string A) :
  bool_decide (0 < size m)%nat = false → m = ∅.
Proof.
  intros H. apply bool_decide_eq_false in H. apply map_size_empty_iff. lia.
Qed.

Lemma compileCacheEndpoint_succeeds ep :
  succeeds (compileCacheEndpoint regexp_Compile quoted ep)
  ↔ validCacheRule regexp_Compile ep.
Proof.
  unfold compileCacheEndpoint, validCacheRule.
  case_bool_decide as Hpath.
  - destruct (regexp_Compile (PathRegex ep)) as [err|regex] eqn:Hc.
    + split; [intros [a Ha]; discriminate|].
      intros [Hp _]. destruct (Hp Hpath) as [a Ha]. discriminate.
    + destruct (bool_decide (0 < size (MatchQueryParamsRegex ep))%nat) eqn:Hsize.
      * pose proof (compileQueryParamRegex_succeeds (MatchQueryParamsRegex ep)) as Hq.
        destruct (compileQueryParamRegex _ _ _) as [err|compiled].
        -- split; [intros [a Ha]; discriminate|].
           intros [_ Hno]. apply Hq in Hno as [a Ha]. discriminate.
        -- split; [|intros _; by eexists].
           intros _. split; [intros _; by exists regex|].
           apply Hq. by eexists.
      * split; [|intros _; by eexists].
        intros _. split; [intros _; by exists regex|].
        rewrite (size_zero_empty _ Hsize). apply hasInvalidPattern_empty.
  - destruct (bool_decide (0 < size (MatchQueryParamsRegex ep))%nat) eqn:Hsize.
    + pose proof (compileQueryParamRegex_succeeds (MatchQueryParamsRegex ep)) as Hq.
      destruct (compileQueryParamRegex _ _ _) as [err|compiled].
      * split; [intros [a Ha]; discriminate|].
        intros [_ Hno]. apply Hq in Hno as [a Ha]. discriminate.
      * split; [|intros _; by eexists].
        intros _. split; [done|]. apply Hq. by eexists.
    + split; [|intros _; by eexists].
      intros _. split; [done|].
      rewrite (size_zero_empty _ Hsize). apply hasInvalidPattern_empty.
Qed.

Lemma compileRateLimitEndpoint_succeeds ep :
  succeeds (compileRateLimitEndpoint regexp_Compile quoted ep)
  ↔ validRateLimitRule regexp_Compile ep.
Proof.
  unfold compileRateLimitEndpoint, validRateLimitRule.
  case_bool_decide as Hpath.
  - destruct (regexp_Compile (rl_PathRegex ep)) as [err|regex] eqn:Hc.
    + split; [intros [a Ha]; discriminate|].
      intros Hp. destruct (Hp Hpath) as [a Ha]. discriminate.
    + split; intros _; [intros _|]; by eexists.
  - split; [done|]. intros _. by eexists.
Qed.

Lemma forEach_succeeds {A} (step : A → error + A) l :
  succeeds (forEach step l) ↔ Forall (λ x, succeeds (step x)) l.
Proof.
  induction l as [|x l IH]; cbn [forEach].
  - split; [constructor|]. intros _. by eexists.
  - destruct (step x) as [err|x'] eqn:Hx.
    + split; [intros [a Ha]; discriminate|].
      intros H. inversion H as [|? ? [a Ha] _]; subst. congruence.
    + destruct (forEach step l) as [err|l'].
      * split; [intros [a Ha]; discriminate|].
        intros H. inversion H as [|? ? _ Hl]; subst.
        apply IH in Hl as [a Ha]. discriminate.
      * split; [|intros _; by eexists].
        intros _. constructor; [rewrite Hx; by eexists|]. apply IH. by eexists.
Qed.

Lemma forEach_pointwise {A} (step : A → error + A) l l' :
  forEach step l = inr l' → Forall2 (λ x x', step x = inr x') l l'.
Proof.
  revert l'. induction l as [|x l IH]; intros l' H; cbn [forEach] in H.
  - injection H as <-. constructor.
  - destruct (step x) as [err|x'] eqn:Hx; [discriminate|].
    destruct (forEach step l) as [err|l0]; [discriminate|].
    injection H as <-. constructor; [done|]. by apply IH.
Qed.

Lemma compileCacheEndpoint_loaded ep ep' :
  compileCacheEndpoint regexp_Compile quoted ep = inr ep' →
  cacheRuleLoaded regexp_Compile ep ep'.
Proof.
  unfold compileCacheEndpoint, cacheRuleLoaded. intros H.
  case_bool_decide as Hpath.
  - destruct (regexp_Compile (PathRegex ep)) as [err|regex] eqn:Hc; [discriminate|].
    destruct (if bool_decide _ then _ else _) as [err|cq]; [discriminate|].
    injection H as <-. cbn. repeat split; try done.
    intros _. by exists regex.
  - destruct (if bool_decide _ then _ else _) as [err|cq]; [discriminate|].
    injection H as <-. cbn. repeat split; done.
Qed.

Lemma compileRateLimitEndpoint_loaded ep ep' :
  compileRateLimitEndpoint regexp_Compile quoted ep = inr ep' →
  rateLimitRuleLoaded regexp_Compile ep ep'.
Proof.
  unfold compileRateLimitEndpoint, rateLimitRuleLoaded. intros H.
  case_bool_decide as Hpath.
  - destruct (regexp_Compile (rl_PathRegex ep)) as [err|regex] eqn:Hc; [discriminate|].
    injection H as <-. cbn. repeat split; try done.
    intros _. by exists regex.
  - injection H as <-. repeat split; done.
Qed.

End LoadFacts.

(** X17.  The query patterns of a rule are compiled all or nothing: the
    loop fails exactly when some pattern of the map is invalid, and when it
    succeeds every parameter with at least one pattern holds its patterns
    compiled in the configured order, while a parameter with an empty list
    of patterns gets no entry at all. *)
Theorem compileQueryParamRegex_all_or_nothing
    (regexp_Compile : string → error + Regexp) (quoted : string → string)
    (m : gmap string (list string)) :
  ((∃ err, compileQueryParamRegex regexp_Compile quoted m = inl err)
   ↔ hasInvalidPattern regexp_Compile m)
  ∧ ∀ compiled,
      compileQueryParamRegex regexp_Compile quoted m = inr compiled →
      ∀ param,
        match m !! param with
        | Some (p :: ps) =>
            ∃ res, compileTo regexp_Compile (p :: ps) res
                   ∧ compiled !! param = Some res
        | _ => compiled !! param = None
        end.
Proof.
  pose proof (compileQueryParamRegex_spec regexp_Compile quoted m) as Hspec.
  pose proof (compileQueryParamRegex_succeeds regexp_Compile quoted m) as Hs.
  destruct (compileQueryParamRegex _ _ _) as [err|compiled]; cbn in Hspec.
  - split; [|discriminate]. split; [done|]. intros _. by exists err.
  - split.
    + split; [intros [e He]; discriminate|].
      intros Hbad. exfalso. apply Hs; [by exists compiled|done].
    + intros c [= <-]. exact Hspec.
Qed.

(** X18.  Which loaded rules constrain the query: a rule read from the
    configuration file counts as a query-constrained rule after loading
    exactly when it has an allow-list or some parameter with at least one
    pattern.  A rule whose pattern map lists only empty pattern lists is
    therefore treated as an unconstrained fallback rule. *)
Theorem compileCacheEndpoint_discrimination
    (regexp_Compile : string → error + Regexp) (quoted : string → string)
    (ep ep' : EndpointCacheConfig) :
  compiledQueryParamRegex ep = ∅ →
  compileCacheEndpoint regexp_Compile quoted ep = inr ep' →
  (hasQueryParamMatching ep' = true
   ↔ MatchQueryParams ep ≠ ∅
     ∨ ∃ param p ps, MatchQueryParamsRegex ep !! param = Some (p :: ps)).
Proof.
  intros Hfresh Hc.
  assert (Hq : MatchQueryParams ep' = MatchQueryParams ep
               ∧ compiledQueryParamRegex ep'
                 = (if bool_decide (0 < size (MatchQueryParamsRegex ep))%nat
                    then match compileQueryParamRegex regexp_Compile quoted
                                 (MatchQueryParamsRegex ep) with
                         | inr compiled => compiled
                         | inl _ => ∅
                         end
                    else ∅)).
  { unfold compileCacheEndpoint in Hc.
    destruct (if bool_decide (PathRegex ep ≠ "") then _ else _) as [err|re];
      [discriminate|].
    case_bool_decide as Hsize.
    - destruct (compileQueryParamRegex _ _ _) as [err|compiled]; [discriminate|].
      by injection Hc as <-.
    - injection Hc as <-. by rewrite Hfresh. }
  destruct Hq as [Hq1 Hq2].
  unfold hasQueryParamMatching. rewrite Hq1, Hq2.
  rewrite orb_true_iff, !bool_decide_eq_true.
  assert (Hne : ∀ {A} (m : gmap string A), (0 < size m)%nat ↔ m ≠ ∅).
  { intros A m. rewrite <- map_size_non_empty_iff. lia. }
  rewrite Hne.
  apply or_iff_compat_l.
  case_bool_decide as Hsize.
  - pose proof (compileQueryParamRegex_spec regexp_Compile quoted
                  (MatchQueryParamsRegex ep)) as Hspec.
    destruct (compileQueryParamRegex _ _ _) as [err|compiled]; cbn in Hspec.
    + exfalso. unfold compileCacheEndpoint in Hc.
      destruct (if bool_decide (PathRegex ep ≠ "") then _ else _) as [e|re];
        [discriminate|].
      rewrite bool_decide_eq_true_2 in Hc by done.
      destruct (compileQueryParamRegex _ _ _) as [e|c] eqn:Hcq; [discriminate|].
      pose proof (compileQueryParamRegex_succeeds regexp_Compile quoted
                    (MatchQueryParamsRegex ep)) as Hs.
      rewrite Hcq in Hs. apply Hs; [by eexists|done].
    + rewrite Hne. split.
      * intros Hnonempty. apply map_choose in Hnonempty as (param & res & Hres).
        specialize (Hspec param).
        destruct (MatchQueryParamsRegex ep !! param) as [[|p ps]|] eqn:Hm;
          [congruence| |congruence].
        by exists param, p, ps.
      * intros (param & p & ps & Hm) Hempty.
        specialize (Hspec param). rewrite Hm in Hspec.
        destruct Hspec as (res & _ & Hres).
        rewrite Hempty, lookup_empty in Hres. discriminate.
  - split; [by rewrite Hne|].
    intros (param & p & ps & Hm).
    apply Nat.nlt_ge in Hsize.
    assert (MatchQueryParamsRegex ep = ∅) as Hempty
      by (apply map_size_empty_iff; lia).
    rewrite Hempty, lookup_empty in Hm. discriminate.
Qed.

Lemma compileCacheEndpoint_discrimination_witness :
  compiledQueryParamRegex emptyPatternRule = ∅
  ∧ (∃ ep', compileCacheEndpoint literalCompile id emptyPatternRule = inr ep'
            ∧ hasQueryParamMatching ep' = false).
Proof.
  split; [reflexivity|].
  destruct (compileCacheEndpoint literalCompile id emptyPatternRule)
    as [err|ep'] eqn:Hc; [by vm_compute in Hc|].
  exists ep'. split; [done|].
  pose proof (compileCacheEndpoint_discrimination literalCompile id
                emptyPatternRule ep' eq_refl Hc) as H.
  destruct (hasQueryParamMatching ep'); [|done].
  exfalso. destruct H as [H _]. destruct (H eq_refl) as [Hne|(param & p & ps & Hm)].
  - by apply Hne.
  - cbn in Hm. destruct (decide (param = "type")) as [->|Hne].
    + by rewrite lookup_singleton_eq in Hm.
    + by rewrite lookup_singleton_ne in Hm.
Defined.

(** X19.  Loading accepts a configuration exactly when every pattern in it
    is valid: the path pattern of every cache rule and rate-limit rule that
    has one, and every query-parameter pattern of every cache rule. *)
Theorem compileRegexPatterns_accepts_iff_valid
    (regexp_Compile : string → error + Regexp) (quoted : string → string)
    (cache : list EndpointCacheConfig)
    (rateLimit : list EndpointRateLimitConfig) :
  succeeds (compileRegexPatterns regexp_Compile quoted cache rateLimit)
  ↔ Forall (validCacheRule regexp_Compile) cache
    ∧ Forall (validRateLimitRule regexp_Compile) rateLimit.
Proof.
  unfold compileRegexPatterns.
  pose proof (forEach_succeeds (compileCacheEndpoint regexp_Compile quoted) cache) as Hc.
  pose proof (forEach_succeeds (compileRateLimitEndpoint regexp_Compile quoted)
                rateLimit) as Hr.
  assert (Hc' : Forall (λ x, succeeds (compileCacheEndpoint regexp_Compile quoted x)) cache
                ↔ Forall (validCacheRule regexp_Compile) cache)
    by (apply Forall_iff; intros; apply compileCacheEndpoint_succeeds).
  assert (Hr' : Forall (λ x, succeeds (compileRateLimitEndpoint regexp_Compile quoted x))
                  rateLimit
                ↔ Forall (validRateLimitRule regexp_Compile) rateLimit)
    by (apply Forall_iff; intros; apply compileRateLimitEndpoint_succeeds).
  rewrite Hc' in Hc. rewrite Hr' in Hr. clear Hc' Hr'.
  destruct (forEach (compileCacheEndpoint _ _) cache) as [err|cache'].
  - split; [intros [a Ha]; discriminate|].
    intros [H _]. apply Hc in H as [a Ha]. discriminate.
  - destruct (forEach (compileRateLimitEndpoint _ _) rateLimit) as [err|rateLimit'].
    + split; [intros [a Ha]; discriminate|].
      intros [_ H]. apply Hr in H as [a Ha]. discriminate.
    + split; [|intros _; by eexists].
      intros _. split; [apply Hc|apply Hr]; by eexists.
Qed.

(** X20.  What loading leaves in place: after a successful load the rules
    are the configured rules, in the configured order and with their
    configured fields, and every rule that has a path pattern holds the
    compiled form of exactly that pattern. *)
Theorem compileRegexPatterns_loaded
    (regexp_Compile : string → error + Regexp) (quoted : string → string)
    (cache cache' : list EndpointCacheConfig)
    (rateLimit rateLimit' : list EndpointRateLimitConfig) :
  compileRegexPatterns regexp_Compile quoted cache rateLimit
    = inr (cache', rateLimit') →
  Forall2 (cacheRuleLoaded regexp_Compile) cache cache'
  ∧ Forall2 (rateLimitRuleLoaded regexp_Compile) rateLimit rateLimit'.
Proof.
  unfold compileRegexPatterns. intros H.
  destruct (forEach (compileCacheEndpoint _ _) cache) as [err|c] eqn:Hc;
    [discriminate|].
  destruct (forEach (compileRateLimitEndpoint _ _) rateLimit) as [err|r] eqn:Hr;
    [discriminate|].
  injection H as <- <-. split.
  - eapply Forall2_impl; [by apply forEach_pointwise|].
    intros ep ep'. apply compileCacheEndpoint_loaded.
  - eapply Forall2_impl; [by apply forEach_pointwise|].
    intros ep ep'. apply compileRateLimitEndpoint_loaded.
Qed.

Lemma compileRegexPatterns_loaded_witness :
  ∃ cache' rateLimit',
    compileRegexPatterns literalCompile id [usersPatternRule] [usersRateRule]
      = inr (cache', rateLimit')
    ∧ Forall2 (cacheRuleLoaded literalCompile) [usersPatternRule] cache'
    ∧ Forall2 (rateLimitRuleLoaded literalCompile) [usersRateRule] rateLimit'.
Proof.
  destruct (compileRegexPatterns literalCompile id [usersPatternRule] [usersRateRule])
    as [err|[cache' rateLimit']] eqn:H; [by vm_compute in H|].
  exists cache', rateLimit'. split; [done|].
  exact (compileRegexPatterns_loaded literalCompile id _ _ _ _ H).
Defined.

(* ------------------------------------------------------------------ *)
(** ** The rate limiter *)

Lemma createLimiter_keeps rl path endpointConfig p l :
  limiters rl !! p = Some l →
  limiters (createLimiter rl path endpointConfig).1 !! p = Some l.
Proof.
  intros Hp. unfold createLimiter.
  destruct (limiters rl !! path) eqn:Hpath; [done|]. cbn.
  rewrite lookup_insert_ne; [done|]. intros ->. congruence.
Qed.

Lemma createLimiter_registered rl path endpointConfig :
  limiters (createLimiter rl path endpointConfig).1 !! path
  = Some (createLimiter rl path endpointConfig).2.
Proof.
  unfold createLimiter.
  destruct (limiters rl !! path) eqn:Hpath; [done|]. cbn.
  by rewrite lookup_insert_eq.
Qed.

Lemma advance_keeps rl c p l :
  limiters rl !! p = Some l → limiters (advance rl c).1 !! p = Some l.
Proof.
  intros Hp. destruct c as [path ec|path ec|path limiter]; cbn.
  - by destruct (limiters rl !! path).
  - pose proof (createLimiter_keeps rl path ec p l Hp) as H.
    by destruct (createLimiter rl path ec).
  - done.
Qed.

Lemma advance_returned rl c path limiter :
  (advance rl c).2 = Returned path limiter →
  c = Returned path limiter ∨ limiters (advance rl c).1 !! path = Some limiter.
Proof.
  destruct c as [p ec|p ec|p l]; cbn.
  - destruct (limiters rl !! p) eqn:Hp; [|discriminate].
    intros [= -> ->]. by right.
  - pose proof (createLimiter_registered rl p ec) as H.
    destruct (createLimiter rl p ec) as [rl' l]. cbn in *.
    intros [= -> ->]. by right.
  - intros ->. by left.
Qed.

Lemma runCall_registered st i :
  returnedRegistered st → returnedRegistered (runCall st i).
Proof.
  destruct st as [rl calls]. unfold returnedRegistered, runCall. cbn.
  intros Hinv. destruct (calls !! i) as [c|] eqn:Hc; [|exact Hinv].
  pose proof (advance_keeps rl c) as Hkeep.
  pose proof (advance_returned rl c) as Hret.
  destruct (advance rl c) as [rl' c']. cbn in *.
  intros k path limiter Hk.
  destruct (decide (k = i)) as [->|Hne].
  - rewrite list_lookup_insert_eq in Hk by (by eapply lookup_lt_Some).
    injection Hk as ->.
    destruct (Hret path limiter eq_refl) as [-> | Hreg]; [|done].
    apply Hkeep. by apply (Hinv i).
  - rewrite list_lookup_insert_ne in Hk by done.
    apply Hkeep. by apply (Hinv k).
Qed.

Lemma runSchedule_registered schedule st :
  returnedRegistered st → returnedRegistered (runSchedule st schedule).
Proof.
  revert st. induction schedule as [|i schedule IH]; intros st Hinv; [done|].
  cbn. apply IH. by apply runCall_registered.
Qed.

Lemma notStarted_registered rl calls :
  Forall notStarted calls → returnedRegistered (rl, calls).
Proof.
  intros Hall i path limiter Hi. cbn in Hi.
  apply (Forall_lookup_1 _ _ _ _ Hall) in Hi as (p & ec & Heq). discriminate.
Qed.

(** X21.  Calls of [getLimiter] that run at the same time agree: under every
    interleaving of their critical sections, two calls that have returned
    for one path hold the same limiter, the one registered for the path.
    No call replaces a limiter another call has handed out. *)
Theorem getLimiter_one_limiter_per_path
    (rl : RateLimiter) (calls : list Call) (schedule : list nat)
    (i j : nat) (path : string) (l l' : Limiter) :
  Forall notStarted calls →
  (runSchedule (rl, calls) schedule).2 !! i = Some (Returned path l) →
  (runSchedule (rl, calls) schedule).2 !! j = Some (Returned path l') →
  l = l' ∧ limiters (runSchedule (rl, calls) schedule).1 !! path = Some l.
Proof.
  intros Hstart Hi Hj.
  pose proof (runSchedule_registered schedule (rl, calls)
                (notStarted_registered rl calls Hstart)) as Hinv.
  pose proof (Hinv i path l Hi) as Hl.
  pose proof (Hinv j path l' Hj) as Hl'.
  split; [congruence|done].
Qed.

Lemma getLimiter_one_limiter_per_path_witness :
  mkLimiter 0 100 200 = mkLimiter 0 100 200
  ∧ limiters (runSchedule (NewRateLimiter limitedConfig,
                           [AtReadLock "/health" None; AtReadLock "/health" None])
                [0; 1; 0; 1]%nat).1 !! "/health"
    = Some (mkLimiter 0 100 200).
Proof.
  apply (getLimiter_one_limiter_per_path (NewRateLimiter limitedConfig)
           [AtReadLock "/health" None; AtReadLock "/health" None]
           [0; 1; 0; 1]%nat 0 1 "/health").
  - repeat constructor; by eexists _, _.
  - reflexivity.
  - reflexivity.
Defined.

Section Progress.

Variable i : nat.




End Progress.



Section Registry.

Variable canon : string → string.
Variable global cfg : RateLimitConfig.
Variable next : ResponseWriter → Request → ResponseWriter * list Event.

Lemma Middleware_registry_step allow rl w r :
  rlc_Enabled (rl_config rl) = true →
  (Middleware canon cfg next allow rl w r).1
  = (getLimiter rl (URLPath r)
       (GetEndpointRateLimitConfig (rlc_Endpoints cfg) (URLPath r))).1.
Proof.
  intros Hon. unfold Middleware. rewrite Hon. cbn [negb].
  destruct (getLimiter _ _ _) as [rl' limiter]. by destruct (allow limiter).
Qed.

Lemma Middleware_disabled allow rl w r :
  rlc_Enabled (rl_config rl) = false →
  Middleware canon cfg next allow rl w r = (rl, next w r).
Proof. intros Hoff. unfold Middleware. by rewrite Hoff. Qed.

Lemma getLimiter_registry paths rl path :
  registryOf global cfg paths rl →
  registryOf global cfg (paths ++ [path])
    (getLimiter rl path (GetEndpointRateLimitConfig (rlc_Endpoints cfg) path)).1.
Proof.
  intros (Hcfg & Hreg & Hinj). unfold getLimiter.
  destruct (limiters rl !! path) as [l0|] eqn:Hpath; cbn [fst].
  - split; [done|]. split; [|done].
    intros p. specialize (Hreg p).
    destruct (limiters rl !! p) as [l|] eqn:Hp.
    + destruct Hreg as (Hin & Hset & Haddr).
      split; [|done]. apply elem_of_app. by left.
    + intros [Hin | ->%list_elem_of_singleton]%elem_of_app; [done|congruence].
  - unfold createLimiter. rewrite Hpath. cbn [fst].
    unfold registryOf. cbn [rl_config limiters allocated].
    split; [done|]. split.
    + intros p. destruct (decide (p = path)) as [->|Hne].
      * rewrite lookup_insert_eq. cbn [lim_rate lim_burst lim_addr]. split.
        -- apply elem_of_app. right. by apply list_elem_of_singleton.
        -- split; [|lia]. unfold settingsFor. rewrite Hcfg.
           by destruct (GetEndpointRateLimitConfig _ _).
      * rewrite lookup_insert_ne by done.
        specialize (Hreg p).
        destruct (limiters rl !! p) as [l|] eqn:Hp.
        -- destruct Hreg as (Hin & Hset & Haddr).
           split; [apply elem_of_app; by left|]. split; [done|lia].
        -- intros [Hin | ->%list_elem_of_singleton]%elem_of_app; done.
    + intros p q l l' Hp Hq Haddr.
      destruct (decide (p = path)) as [->|Hnp], (decide (q = path)) as [->|Hnq];
        [done| | |].
      * rewrite lookup_insert_eq in Hp. injection Hp as <-.
        rewrite lookup_insert_ne in Hq by done.
        specialize (Hreg q). rewrite Hq in Hreg. cbn in Haddr. lia.
      * rewrite lookup_insert_eq in Hq. injection Hq as <-.
        rewrite lookup_insert_ne in Hp by done.
        specialize (Hreg p). rewrite Hp in Hreg. cbn in Haddr. lia.
      * rewrite lookup_insert_ne in Hp by done.
        rewrite lookup_insert_ne in Hq by done.
        by apply (Hinj p q l l').
Qed.

Lemma registryOf_config paths rl :
  registryOf global cfg paths rl → rl_config rl = global.
Proof. by intros [? _]. Qed.

End Registry.

(** X23.  The registry of the rate limiter after any sequence of requests,
    started empty.  With limiting enabled it holds a limiter for exactly
    the request paths seen so far, each created with the settings of the
    rule that resolution gives its path (the global settings when there is
    none), and different paths hold different limiters: requests to two
    paths under one rule do not share a budget, and no limiter is ever
    removed.  With limiting disabled the registry stays empty. *)
Theorem Middleware_registry
    (canon : string → string) (global cfg : RateLimitConfig)
    (next : ResponseWriter → Request → ResponseWriter * list Event)
    (requests : list (Request * (Limiter → bool))) :
  let rl := serveAll canon cfg next (NewRateLimiter global) requests in
  if rlc_Enabled global
  then registryOf global cfg (map (λ ra, URLPath ra.1) requests) rl
  else rl = NewRateLimiter global.
Proof.
  cbn zeta. induction requests as [|[r allow] requests IH] using rev_ind.
  - unfold serveAll. cbn [foldl map].
    destruct (rlc_Enabled global); [|done].
    unfold registryOf, NewRateLimiter. cbn [rl_config limiters allocated].
    split; [done|]. split.
    + intros path. rewrite lookup_empty. apply not_elem_of_nil.
    + intros p q l l' Hp. by rewrite lookup_empty in Hp.
  - unfold serveAll in *. rewrite foldl_app. cbn [foldl fst snd].
    destruct (rlc_Enabled global) eqn:Hon.
    + rewrite Middleware_registry_step
        by (by rewrite (registryOf_config _ _ _ _ IH)).
      rewrite map_app. cbn [map fst].
      by apply getLimiter_registry.
    + rewrite IH. by rewrite Middleware_disabled.
Qed.

(** X24.  A request the limiter refuses never reaches the wrapped handler:
    it causes no upstream call and no store access whatever the handler
    is, and on a writer without a status it is answered with 429, the JSON
    content type and the fixed body. *)
Theorem Middleware_refusal
    (canon : string → string) (cfg : RateLimitConfig)
    (next : ResponseWriter → Request → ResponseWriter * list Event)
    (allow : Limiter → bool) (rl : RateLimiter) (w : ResponseWriter) (r : Request) :
  rlc_Enabled (rl_config rl) = true →
  allow (getLimiter rl (URLPath r)
           (GetEndpointRateLimitConfig (rlc_Endpoints cfg) (URLPath r))).2 = false →
  w_status w = None →
  let out := (Middleware canon cfg next allow rl w r).2 in
  out.2 = []
  ∧ w_status out.1 = Some 429
  ∧ w_header out.1 !! canon "Content-Type" = Some ["application/json"]
  ∧ w_body out.1 = w_body w ++ String.list_byte_of_string rateLimitExceeded.
Proof.
  intros Hon Hno Hfresh out. subst out. unfold Middleware.
  rewrite Hon. cbn [negb].
  destruct (getLimiter _ _ _) as [rl' limiter]. cbn [snd] in Hno.
  rewrite Hno. cbn [negb snd fst].
  split; [done|]. split; [|split].
  - unfold Write, WriteHeader, withHeader. cbn. by rewrite Hfresh.
  - rewrite written_header. apply Header_Set_lookup.
  - unfold Write, WriteHeader, withHeader. cbn. by rewrite Hfresh.
Qed.

Lemma Middleware_refusal_witness :
  let out := (Middleware sameName limitedConfig
                (λ w r, ServeHTTP sameName sameName double showTime noDecode
                          (demoConfig retry3)
                          (worldAnswering (DoResp (response 200 None)) false) w r 0)
                (λ _, false) (NewRateLimiter limitedConfig) newResponseWriter
                (getRequest "/api/users/7")).2 in
  out.2 = []
  ∧ w_status out.1 = Some 429
  ∧ w_header out.1 !! sameName "Content-Type" = Some ["application/json"]
  ∧ w_body out.1
    = w_body newResponseWriter ++ String.list_byte_of_string rateLimitExceeded.
Proof.
  apply (Middleware_refusal sameName limitedConfig
           (λ w r, ServeHTTP sameName sameName double showTime noDecode
                     (demoConfig retry3)
                     (worldAnswering (DoResp (response 200 None)) false) w r 0)
           (λ _, false) (NewRateLimiter limitedConfig) newResponseWriter
           (getRequest "/api/users/7")); reflexivity.
Defined.

(* ------------------------------------------------------------------ *)
(** ** The query string as it is logged *)

Lemma strings_Cut_segments q :
  q ≠ "" →
  segments q = (strings_Cut q "&").1.1 :: segments (strings_Cut q "&").1.2.
Proof.
  induction q as [|c r IH]; [done|]. intros _. cbn [segments strings_Cut].
  destruct (Ascii.eqb c "&"); [done|].
  destruct r as [|c' r'].
  - reflexivity.
  - specialize (IH ltac:(done)). rewrite IH.
    by destruct (strings_Cut (String c' r') "&") as [[before after] found].
Qed.

Lemma strings_Cut_shorter q :
  q ≠ "" → (String.length (strings_Cut q "&").1.2 < String.length q)%nat.
Proof.
  induction q as [|c r IH]; [done|]. intros _. cbn [strings_Cut].
  destruct (Ascii.eqb c "&"); [cbn; lia|].
  destruct r as [|c' r'].
  - cbn. lia.
  - specialize (IH ltac:(done)).
    destruct (strings_Cut (String c' r') "&") as [[before after] found].
    cbn in *. lia.
Qed.

Section SanitizeFacts.

Variable url_QueryUnescape : string → string.
Variable url_QueryEscape : string → string.

(** The walk over the query adds, for every name not seen before, one part
    for each of its values; with fuel above the length of the query it
    reaches the end of the query. *)
Lemma walkQuery_parts fuel parsed q seen parts :
  (String.length q < fuel)%nat →
  walkQuery url_QueryUnescape url_QueryEscape fuel parsed q seen parts
  = parts ++ flat_map (λ name, map (λ v, url_QueryEscape name +:+ "="
                                           +:+ url_QueryEscape v)
                                   (default [] (parsed !! name)))
                      (firstSeen seen (queryNames url_QueryUnescape q)).
Proof.
  revert q seen parts. induction fuel as [|fuel IH]; intros q seen parts Hfuel; [lia|].
  cbn [walkQuery]. case_bool_decide as Hq.
  - subst q. cbn. by rewrite app_nil_r.
  - unfold queryNames. rewrite (strings_Cut_segments q Hq).
    pose proof (strings_Cut_shorter q Hq) as Hshort.
    destruct (strings_Cut q "&") as [[key rest] found]. cbn [fst snd] in *.
    cbn [map firstSeen].
    destruct (strings_Cut key "=") as [[paramName value] hasValue]. cbn [fst snd].
    fold (queryNames url_QueryUnescape rest).
    case_bool_decide as Hseen.
    + apply IH. lia.
    + rewrite IH by lia. cbn [flat_map]. by rewrite app_assoc.
Qed.

End SanitizeFacts.

Lemma redactValues_cons param rest parsed :
  redactValues (param :: rest) parsed
  = redactValues rest
      match parsed !! param with
      | Some _ => <[ param := [redactedValue] ]> parsed
      | None => parsed
      end.
Proof. reflexivity. Qed.

Lemma redactValues_lookup redactQueryParams parsed name :
  redactValues redactQueryParams parsed !! name
  = match parsed !! name with
    | Some values =>
        Some (if bool_decide (name ∈ redactQueryParams)
              then [redactedValue] else values)
    | None => None
    end.
Proof.
  revert parsed. induction redactQueryParams as [|param rest IH]; intros parsed.
  - cbn. destruct (parsed !! name); [|done].
    rewrite bool_decide_eq_false_2; [done|]. apply not_elem_of_nil.
  - rewrite redactValues_cons.
    rewrite IH. destruct (decide (name = param)) as [->|Hne].
    + destruct (parsed !! param) as [values|] eqn:Hp.
      * rewrite lookup_insert_eq.
        rewrite (bool_decide_eq_true_2 (param ∈ param :: rest)) by left.
        by destruct (bool_decide (param ∈ rest)).
      * by rewrite Hp.
    + assert (Hsame : match parsed !! param with
                      | Some _ => <[param:=[redactedValue]]> parsed
                      | None => parsed
                      end !! name = parsed !! name).
      { destruct (parsed !! param); [|done]. by rewrite lookup_insert_ne. }
      rewrite Hsame. destruct (parsed !! name) as [values|]; [|done].
      f_equal.
      assert (Hin : bool_decide (name ∈ rest) = bool_decide (name ∈ param :: rest))
        by (apply bool_decide_ext; rewrite elem_of_cons;
            split; [intros ?; by right|intros [?|?]; done]).
      by rewrite Hin.
Qed.

Lemma redactValues_logged redactQueryParams parsed name :
  default [] (redactValues redactQueryParams parsed !! name)
  = loggedValues redactQueryParams parsed name.
Proof.
  rewrite redactValues_lookup. unfold loggedValues.
  by destruct (parsed !! name).
Qed.

Lemma flat_map_eq {A B} (f g : A → list B) (l : list A) :
  (∀ x, f x = g x) → flat_map f l = flat_map g l.
Proof. intros H. induction l as [|x l IH]; cbn; [done|]. by rewrite H, IH. Qed.

Lemma firstSeen_elem seen names name :
  name ∈ firstSeen seen names ↔ name ∈ names ∧ name ∉ seen.
Proof.
  revert seen. induction names as [|n rest IH]; intros seen; cbn [firstSeen].
  - split; [by intros ?%elem_of_nil|by intros [?%elem_of_nil _]].
  - case_bool_decide as Hn.
    + rewrite IH. split.
      * intros [Hin Hout]. split; [by right|done].
      * intros [Hin Hout]. apply elem_of_cons in Hin as [->|Hin]; [done|by split].
    + split.
      * intros [->|Hin]%elem_of_cons; [split; [by left|done]|].
        apply IH in Hin as [Hin Hout]. split; [by right|].
        intros Hs. apply Hout. apply elem_of_union. by right.
      * intros [Hin Hout]. apply elem_of_cons in Hin as [->|Hin]; [by left|].
        destruct (decide (name = n)) as [->|Hne]; [by left|].
        right. apply IH. split; [done|].
        intros [Hs|Hs]%elem_of_union; [|done].
        by apply elem_of_singleton in Hs.
Qed.

Lemma firstSeen_NoDup seen names : NoDup (firstSeen seen names).
Proof.
  revert seen. induction names as [|n rest IH]; intros seen; cbn [firstSeen].
  - constructor.
  - case_bool_decide as Hn; [apply IH|].
    constructor; [|apply IH].
    rewrite firstSeen_elem. intros [_ Hout]. apply Hout.
    apply elem_of_union. left. by apply elem_of_singleton.
Qed.

(** X25.  What [SanitizeQuery] returns.  Without configured names, for an
    empty query and for a query that [url.ParseQuery] rejects, it is the raw
    query, nothing redacted.  Otherwise it is built from the names of the
    query, each once at its first place: a name that is configured is
    written once with the redaction marker, whatever values and however
    many it had, and any other name with each of its values in order. *)
Theorem SanitizeQuery_result
    (url_ParseQuery : string → error + gmap string (list string))
    (url_QueryUnescape url_QueryEscape : string → string)
    (redactQueryParams : list string) (rawQuery : string) :
  SanitizeQuery url_ParseQuery url_QueryUnescape url_QueryEscape
    redactQueryParams rawQuery
  = (if bool_decide (redactQueryParams = []) || bool_decide (rawQuery = "")
     then rawQuery
     else
       match url_ParseQuery rawQuery with
       | inl _ => rawQuery
       | inr parsed =>
           strings_Join
             (flat_map
                (λ name, map (λ v, url_QueryEscape name +:+ "=" +:+ url_QueryEscape v)
                             (loggedValues redactQueryParams parsed name))
                (firstSeen ∅ (queryNames url_QueryUnescape rawQuery)))
             "&"
       end)
  ∧ NoDup (firstSeen ∅ (queryNames url_QueryUnescape rawQuery))
  ∧ ∀ name, name ∈ firstSeen ∅ (queryNames url_QueryUnescape rawQuery)
            ↔ name ∈ queryNames url_QueryUnescape rawQuery.
Proof.
  split; [|split].
  - unfold SanitizeQuery.
    assert (Hlen : bool_decide (length redactQueryParams = 0%nat)
                   = bool_decide (redactQueryParams = [])).
    { apply bool_decide_ext. by destruct redactQueryParams. }
    rewrite Hlen.
    destruct (bool_decide (redactQueryParams = []) || bool_decide (rawQuery = ""));
      [done|].
    destruct (url_ParseQuery rawQuery) as [err|parsed]; [done|].
    rewrite walkQuery_parts by lia. rewrite app_nil_l.
    f_equal. apply flat_map_eq. intros name.
    by rewrite redactValues_logged.
  - apply firstSeen_NoDup.
  - intros name. rewrite firstSeen_elem. split; [by intros [? _]|].
    intros Hin. split; [done|]. apply not_elem_of_empty.
Qed.

Example SanitizeQuery_preserves_order :
  SanitizeQuery parseDemo id escapeDemo ["apikey"]
    "symbol=IBM&apikey=secret&function=QUOTE"
  = "symbol=IBM&apikey=%5BREDACTED%5D&function=QUOTE".
Proof. by vm_compute. Qed.
